(** * q-monitor-cli: the status-aggregation pipeline of monitor.go

    A shallow embedding of monitor.go: the two stat parsers
    ([parseCPUUsage], [parseMemoryUsage]), the log extractor
    ([extractLogMessages]), the formatter ([formatOutput]), the per-node
    fetch ([getNodeStatus]) and one pass of the poll loop of [main].

    Go strings are byte sequences: they are [string] here, one [ascii] per
    byte.  The pieces of the Go standard library that monitor.go calls
    (strings.Split, strings.Fields, encoding/json.Unmarshal, fmt's verbs)
    are modelled in the modules [Utf8], [Strings], [Strconv], [Json] and
    [Fmt], from their documented behaviour.

    A run-time panic (index out of range) is [None]; an [error] value is
    its message.  Go leaves the iteration order of [range] over a map
    unspecified, so a function that ranges over a map has a list of
    possible results, one per order. *)

From Stdlib Require Import ZArith String Ascii List SpecFloat DecimalString Lia.
From stdpp Require Import gmap strings list fin_maps sorting.

Set Warnings "-register-all".
Local Open Scope string_scope.
Local Open Scope list_scope.
Local Open Scope Z_scope.

(** ** Bytes *)

Definition byte_of (c : ascii) : Z := Z.of_N (N_of_ascii c).
Definition chr (z : Z) : ascii := ascii_of_N (Z.to_N z).

Definition LF : ascii := chr 10.
Definition nl : string := String LF "".

(** Text with double quotes is written with apostrophes: [dq] puts the
    double quotes back. *)
Fixpoint dq (s : string) : string :=
  match s with
  | "" => ""
  | String c s' => String (if byte_of c =? 39 then chr 34 else c) (dq s')
  end.

(** ** unicode/utf8 and unicode.IsSpace *)

Module Utf8.

Definition RuneError : Z := 65533.

(** A continuation byte, 0x80 to 0xBF. *)
Definition cont (b : Z) : bool := (128 <=? b) && (b <=? 191).

Definition in_range (lo hi b : Z) : bool := (lo <=? b) && (b <=? hi).

(** The [first] table of unicode/utf8: for a leading byte, the length
    of the sequence and the range accepted for the second byte. *)
Definition first (b : Z) : option (nat * Z * Z) :=
  if in_range 194 223 b then Some (2%nat, 128, 191)
  else if b =? 224 then Some (3%nat, 160, 191)
  else if in_range 225 236 b then Some (3%nat, 128, 191)
  else if b =? 237 then Some (3%nat, 128, 159)
  else if in_range 238 239 b then Some (3%nat, 128, 191)
  else if b =? 240 then Some (4%nat, 144, 191)
  else if in_range 241 243 b then Some (4%nat, 128, 191)
  else if b =? 244 then Some (4%nat, 128, 143)
  else None.

(** utf8.DecodeRuneInString on a non-empty string: the rune and its
    width in bytes; an invalid or short sequence is (RuneError, 1). *)
Definition DecodeRune (s : string) : Z * nat :=
  match s with
  | "" => (RuneError, 0%nat)
  | String c0 s1 =>
      let b0 := byte_of c0 in
      if b0 <? 128 then (b0, 1%nat)
      else match first b0 with
      | None => (RuneError, 1%nat)
      | Some (sz, lo, hi) =>
          match s1 with
          | "" => (RuneError, 1%nat)
          | String c1 s2 =>
              let b1 := byte_of c1 in
              if negb (in_range lo hi b1) then (RuneError, 1%nat)
              else if (sz <=? 2)%nat then
                (Z.lor (Z.shiftl (Z.land b0 31) 6) (Z.land b1 63), 2%nat)
              else match s2 with
              | "" => (RuneError, 1%nat)
              | String c2 s3 =>
                  let b2 := byte_of c2 in
                  if negb (cont b2) then (RuneError, 1%nat)
                  else if (sz <=? 3)%nat then
                    (Z.lor (Z.shiftl (Z.land b0 15) 12)
                       (Z.lor (Z.shiftl (Z.land b1 63) 6) (Z.land b2 63)),
                     3%nat)
                  else match s3 with
                  | "" => (RuneError, 1%nat)
                  | String c3 _ =>
                      let b3 := byte_of c3 in
                      if negb (cont b3) then (RuneError, 1%nat)
                      else
                        (Z.lor (Z.shiftl (Z.land b0 7) 18)
                           (Z.lor (Z.shiftl (Z.land b1 63) 12)
                              (Z.lor (Z.shiftl (Z.land b2 63) 6)
                                 (Z.land b3 63))),
                         4%nat)
                  end
              end
          end
      end
  end.

(** utf8.EncodeRune; surrogates and runes past U+10FFFF become
    RuneError. *)
Definition EncodeRune (r : Z) : string :=
  let r := if (r <? 0) || (1114111 <? r) || in_range 55296 57343 r
           then RuneError else r in
  if r <=? 127 then String (chr r) ""
  else if r <=? 2047 then
    String (chr (Z.lor 192 (Z.shiftr r 6)))
      (String (chr (Z.lor 128 (Z.land r 63))) "")
  else if r <=? 65535 then
    String (chr (Z.lor 224 (Z.shiftr r 12)))
      (String (chr (Z.lor 128 (Z.land (Z.shiftr r 6) 63)))
         (String (chr (Z.lor 128 (Z.land r 63))) ""))
  else
    String (chr (Z.lor 240 (Z.shiftr r 18)))
      (String (chr (Z.lor 128 (Z.land (Z.shiftr r 12) 63)))
         (String (chr (Z.lor 128 (Z.land (Z.shiftr r 6) 63)))
            (String (chr (Z.lor 128 (Z.land r 63))) ""))).

(** unicode.IsSpace: the Latin-1 spaces, then the White_Space table. *)
Definition IsSpace (r : Z) : bool :=
  in_range 9 13 r || (r =? 32) || (r =? 133) || (r =? 160)
  || (r =? 5760) || in_range 8192 8202 r || in_range 8232 8233 r
  || (r =? 8239) || (r =? 8287) || (r =? 12288).

(** [for i, r := range s]: the runes of [s], each with the bytes it was
    decoded from.  [skip] counts the bytes of the current rune still to
    step over. *)
Fixpoint runes_from (skip : nat) (s : string) : list (Z * string) :=
  match s with
  | "" => []
  | String _ s' =>
      match skip with
      | S k => runes_from k s'
      | O =>
          let '(r, size) := DecodeRune s in
          (r, String.substring 0 size s) :: runes_from (size - 1) s'
      end
  end.

Definition runes (s : string) : list (Z * string) := runes_from 0 s.

End Utf8.

(** ** package strings *)

Module Strings.

(** strings.Split(s, sep) for a one-byte separator, the only use in
    monitor.go: the pieces between the separators, always at least
    one. *)
Fixpoint Split (s : string) (sep : ascii) : list string :=
  match s with
  | "" => [""]
  | String c s' =>
      if Ascii.eqb c sep then "" :: Split s' sep
      else match Split s' sep with
           | [] => [String c ""]
           | w :: ws => String c w :: ws
           end
  end.

(** strings.Join(elems, sep). *)
Fixpoint Join (elems : list string) (sep : string) : string :=
  match elems with
  | [] => ""
  | [w] => w
  | w :: ws => w +:+ sep +:+ Join ws sep
  end.

(** strings.FieldsFunc over decoded runes: the maximal runs of runes
    that do not satisfy [f].  [cur] is the field being read. *)
Fixpoint fields_of (f : Z -> bool) (cur : option string)
    (rs : list (Z * string)) : list string :=
  match rs with
  | [] => match cur with Some w => [w] | None => [] end
  | (r, bytes) :: rs' =>
      if f r then
        match cur with
        | Some w => w :: fields_of f None rs'
        | None => fields_of f None rs'
        end
      else
        fields_of f (Some (default "" cur +:+ bytes)) rs'
  end.

Definition FieldsFunc (s : string) (f : Z -> bool) : list string :=
  fields_of f None (Utf8.runes s).

(** strings.Fields(s): split around runs of white space. *)
Definition Fields (s : string) : list string :=
  FieldsFunc s Utf8.IsSpace.

End Strings.

(** ** package strconv: float64 *)

Module Strconv.

(** A float64 is a [spec_float] of binary64 (53 bits of mantissa,
    exponents from -1074 to 971): [S754_finite s m e] is
    (-1)^s * m * 2^e. *)
Definition float64 : Type := spec_float.

Definition itoa (z : Z) : string :=
  NilZero.string_of_uint (N.to_uint (Z.to_N z)).

Definition digit_val (c : ascii) : Z := byte_of c - 48.

(** The value of a string of decimal digits. *)
Definition atoi (ds : string) : Z :=
  foldl (fun acc c => 10 * acc + digit_val c) 0 (list_ascii_of_string ds).

(** Round to the nearest integer, ties to even: [num / den], [den > 0]. *)
Definition div_half_even (num den : Z) : Z :=
  let q := num / den in
  let r := num mod den in
  if (den <? 2 * r) || ((den =? 2 * r) && Z.odd q) then q + 1 else q.

(** The binary64 nearest to the positive rational [num / den]
    (IEEE 754 round to nearest even): mantissa and exponent, or [None]
    when the result is out of range. *)
Definition round_binary64 (num den : Z) : option (Z * Z) :=
  let e0 := Z.log2 num - Z.log2 den - 52 in
  let scaled e := (num * 2 ^ Z.max (- e) 0, den * 2 ^ Z.max e 0) in
  let q0 := let '(n, d) := scaled e0 in n / d in
  let e1 := if q0 <? 2 ^ 52 then e0 - 1 else e0 in
  let e := Z.max e1 (-1074) in
  let m := let '(n, d) := scaled e in div_half_even n d in
  let '(m, e) := if m =? 2 ^ 53 then (2 ^ 52, e + 1) else (m, e) in
  if 971 <? e then None else Some (m, e).

(** strconv.ParseFloat(s, 64) on a number that passed the JSON scanner:
    sign, integer digits, fraction digits, exponent sign and digits.
    [None] is the range error (the value rounds to an infinity). *)
Definition ParseFloat (neg : bool) (int frac : string)
    (eneg : bool) (edigits : string) : option float64 :=
  let d := atoi (int +:+ frac) in
  let nd := Z.of_nat (String.length (int +:+ frac)) in
  let ex := atoi edigits in
  let e10 := (if eneg then - ex else ex) - Z.of_nat (String.length frac) in
  if d =? 0 then Some (S754_zero neg)
  else if 310 <? e10 then None
  else if e10 + nd <? -330 then Some (S754_zero neg)
  else
    let '(num, den) :=
      if 0 <=? e10 then (d * 10 ^ e10, 1) else (d, 10 ^ (- e10)) in
    match round_binary64 num den with
    | None => None
    | Some (m, e) =>
        if m =? 0 then Some (S754_zero neg)
        else Some (S754_finite neg (Z.to_pos m) e)
    end.

Definition sign (neg : bool) : string := if neg then "-" else "".

Definition zeros (n : Z) : string :=
  string_of_list_ascii (repeat "0"%char (Z.to_nat n)).

(** strconv.FormatFloat(f, 'f', 0, 64), the [%.0f] of fmt: the exact
    value rounded to an integer, ties to even, in decimal. *)
Definition FormatFloat_f0 (f : float64) : string :=
  match f with
  | S754_zero s => sign s +:+ "0"
  | S754_finite s m e =>
      sign s +:+
      itoa (if 0 <=? e then Z.pos m * 2 ^ e
            else div_half_even (Z.pos m) (2 ^ (- e)))
  | S754_infinity s => if s then "-Inf" else "+Inf"
  | S754_nan => "NaN"
  end.

(** The shortest decimal [a * 10^k] that parses back to [m * 2^e]: the
    largest [k] for which a multiple of [10^k] lies in the rounding
    interval of the float, and the multiple nearest to the float.  The
    interval is given in units of [2^(e-2)]; it is wider than [10^k]
    some twenty steps below the first [k] tried. *)
Fixpoint shortest_from (fuel : nat) (lo c hi : Z) (incl : bool) (e2 k : Z)
    : Z * Z :=
  let pn := 10 ^ Z.max k 0 * 2 ^ Z.max (- e2) 0 in
  let pd := 10 ^ Z.max (- k) 0 * 2 ^ Z.max e2 0 in
  (* x * 2^e2 / 10^k = x * pd / pn *)
  let a_lo :=
    let q := (lo * pd + pn - 1) / pn in
    if negb incl && (q * pn =? lo * pd) then q + 1 else q in
  let a_hi :=
    let q := hi * pd / pn in
    if negb incl && (q * pn =? hi * pd) then q - 1 else q in
  if (a_lo <=? a_hi) && (0 <? a_hi) then
    (Z.min a_hi (Z.max a_lo (div_half_even (c * pd) pn)), k)
  else match fuel with
       | O => (c * 2 ^ Z.max e2 0, 0)
       | S fuel' => shortest_from fuel' lo c hi incl e2 (k - 1)
       end.

Definition shortest (m : positive) (e : Z) : Z * Z :=
  let c := 4 * Z.pos m in
  let lo := if (Z.pos m =? 2 ^ 52) && (-1074 <? e) then c - 1 else c - 2 in
  let hi := c + 2 in
  let x := Z.log2 hi + 1 + (e - 2) in
  let k0 := (if 0 <=? x then x * 30103 / 100000
             else - ((- x) * 30102 / 100000)) + 2 in
  shortest_from 40 lo c hi (Z.even (Z.pos m)) (e - 2) k0.

(** strconv.FormatFloat(f, 'g', -1, 64), the [%v] of fmt for a float64:
    the shortest digits, in exponent form when the decimal exponent is
    below -4 or at least 6. *)
Definition FormatFloat_g (f : float64) : string :=
  match f with
  | S754_zero s => sign s +:+ "0"
  | S754_finite s m e =>
      let '(a, k) := shortest m e in
      let ds := itoa a in
      let nd := Z.of_nat (String.length ds) in
      let dp := nd + k in
      let x := dp - 1 in
      sign s +:+
      (if (x <? -4) || (6 <=? x) then
         String.substring 0 1 ds
         +:+ (if 1 <? nd then "." +:+ String.substring 1 (Z.to_nat nd - 1) ds
              else "")
         +:+ "e" +:+ (if x <? 0 then "-" else "+")
         +:+ (if Z.abs x <? 10 then "0" else "") +:+ itoa (Z.abs x)
       else if dp <=? 0 then "0." +:+ zeros (- dp) +:+ ds
       else if nd <=? dp then ds +:+ zeros (dp - nd)
       else String.substring 0 (Z.to_nat dp) ds +:+ "."
            +:+ String.substring (Z.to_nat dp) (Z.to_nat (nd - dp)) ds)
  | S754_infinity s => if s then "-Inf" else "+Inf"
  | S754_nan => "NaN"
  end.

End Strconv.

(** ** Values decoded from JSON *)

(** What encoding/json stores in an [interface{}]: nil, bool, float64,
    string, []interface{} and map[string]interface{}. *)
Inductive value : Type :=
  | VNil
  | VBool (b : bool)
  | VFloat64 (f : Strconv.float64)
  | VString (s : string)
  | VSlice (l : list value)
  | VMap (m : gmap string value).

(** ** package encoding/json: Unmarshal into a map[string]interface{} *)

Module Json.

(** *** The scanner, byte by byte *)

(** A piece of a string literal: a byte as written, a one-letter escape
    (already replaced by its byte), or a [\uXXXX] escape. *)
Inductive strunit :=
  | URaw (c : ascii)
  | UEsc (c : ascii)
  | UHex (r : Z).

Inductive token :=
  | TLBrace | TRBrace | TLBrack | TRBrack | TComma | TColon
  | TString (s : string)
  | TNumber (neg : bool) (int frac : string) (eneg : bool) (edigits : string)
  | TTrue | TFalse | TNull.

(** The digits read so far in a number. *)
Record number := Number {
  n_neg : bool; n_int : string; n_frac : string;
  n_eneg : bool; n_exp : string }.

(** The scanner's states inside a number: stateNeg, state0, state1,
    stateDot, stateDot0, stateE, stateESign, stateE0. *)
Inductive numstate := SNeg | S0 | S1 | SDot | SDot0 | SE | SESign | SE0.

Inductive mode :=
  | MValue                                        (* between tokens *)
  | MString (us : list strunit)                   (* stateInString *)
  | MEsc (us : list strunit)                      (* stateInStringEsc *)
  | MHex (us : list strunit) (k : nat) (r : Z)    (* stateInStringEscU.. *)
  | MNumber (st : numstate) (n : number)
  | MLiteral (rest : string) (t : token).         (* stateT, stateTr, ... *)

Definition is_digit (c : ascii) : bool :=
  Utf8.in_range 48 57 (byte_of c).

Definition hex_val (c : ascii) : option Z :=
  let b := byte_of c in
  if Utf8.in_range 48 57 b then Some (b - 48)
  else if Utf8.in_range 97 102 b then Some (b - 87)
  else if Utf8.in_range 65 70 b then Some (b - 55)
  else None.

Definition snoc (s : string) (c : ascii) : string := s +:+ String c "".

(** The raw bytes at the head of [us], at most [n] of them. *)
Fixpoint raw_prefix (n : nat) (us : list strunit) : string :=
  match n, us with
  | S k, URaw c :: us' => String c (raw_prefix k us')
  | _, _ => ""
  end.

(** unquote: the bytes of a string literal.  Escapes are replaced,
    a surrogate pair of [\u] escapes becomes one rune, a lone surrogate
    and every byte that is not part of a well-formed UTF-8 sequence
    become U+FFFD.  [skip] counts the continuation bytes of the current
    sequence, copied as they are. *)
Fixpoint unquote (skip : nat) (us : list strunit) : string :=
  match us with
  | [] => ""
  | URaw c :: us' =>
      match skip with
      | S k => String c (unquote k us')
      | O =>
          if byte_of c <? 128 then String c (unquote 0 us')
          else
            let '(r, size) := Utf8.DecodeRune (raw_prefix 4 us) in
            if (r =? Utf8.RuneError) && (size =? 1)%nat
            then Utf8.EncodeRune Utf8.RuneError +:+ unquote 0 us'
            else String c (unquote (size - 1) us')
      end
  | UEsc c :: us' => String c (unquote 0 us')
  | UHex r :: us' =>
      if Utf8.in_range 55296 57343 r then
        match us' with
        | UHex r2 :: us'' =>
            if Utf8.in_range 55296 56319 r && Utf8.in_range 56320 57343 r2
            then Utf8.EncodeRune
                   (Z.lor (Z.shiftl (r - 55296) 10) (r2 - 56320) + 65536)
                 +:+ unquote 0 us''
            else Utf8.EncodeRune Utf8.RuneError +:+ unquote 0 us'
        | _ => Utf8.EncodeRune Utf8.RuneError +:+ unquote 0 us'
        end
      else Utf8.EncodeRune r +:+ unquote 0 us'
  end.

Definition number_token (n : number) : token :=
  TNumber (n_neg n) (n_int n) (n_frac n) (n_eneg n) (n_exp n).

(** stateBeginValue and stateEndValue on one byte between tokens. *)
Definition step_value (c : ascii) : option (mode * list token) :=
  let b := byte_of c in
  if (b =? 32) || (b =? 9) || (b =? 13) || (b =? 10) then Some (MValue, [])
  else if b =? 123 then Some (MValue, [TLBrace])
  else if b =? 125 then Some (MValue, [TRBrace])
  else if b =? 91 then Some (MValue, [TLBrack])
  else if b =? 93 then Some (MValue, [TRBrack])
  else if b =? 44 then Some (MValue, [TComma])
  else if b =? 58 then Some (MValue, [TColon])
  else if b =? 34 then Some (MString [], [])
  else if b =? 45 then Some (MNumber SNeg (Number true "" "" false ""), [])
  else if b =? 48 then
    Some (MNumber S0 (Number false (String c "") "" false ""), [])
  else if is_digit c then
    Some (MNumber S1 (Number false (String c "") "" false ""), [])
  else if b =? 116 then Some (MLiteral "rue" TTrue, [])
  else if b =? 102 then Some (MLiteral "alse" TFalse, [])
  else if b =? 110 then Some (MLiteral "ull" TNull, [])
  else None.

(** The end of a number: its token, then the byte that ended it. *)
Definition end_number (n : number) (c : ascii) : option (mode * list token) :=
  '(m, ts) ← step_value c;
  Some (m, number_token n :: ts).

Definition is_e (c : ascii) : bool :=
  (byte_of c =? 101) || (byte_of c =? 69).

Definition step_number (st : numstate) (n : number) (c : ascii)
    : option (mode * list token) :=
  let with_int := Number (n_neg n) (snoc (n_int n) c) "" false "" in
  let with_frac :=
    Number (n_neg n) (n_int n) (snoc (n_frac n) c) false "" in
  let with_exp :=
    Number (n_neg n) (n_int n) (n_frac n) (n_eneg n) (snoc (n_exp n) c) in
  match st with
  | SNeg =>
      if byte_of c =? 48 then Some (MNumber S0 with_int, [])
      else if is_digit c then Some (MNumber S1 with_int, [])
      else None
  | S1 =>
      if is_digit c then Some (MNumber S1 with_int, [])
      else if byte_of c =? 46 then Some (MNumber SDot n, [])
      else if is_e c then Some (MNumber SE n, [])
      else end_number n c
  | S0 =>
      if byte_of c =? 46 then Some (MNumber SDot n, [])
      else if is_e c then Some (MNumber SE n, [])
      else end_number n c
  | SDot =>
      if is_digit c then Some (MNumber SDot0 with_frac, []) else None
  | SDot0 =>
      if is_digit c then Some (MNumber SDot0 with_frac, [])
      else if is_e c then Some (MNumber SE n, [])
      else end_number n c
  | SE =>
      if byte_of c =? 43 then Some (MNumber SESign n, [])
      else if byte_of c =? 45 then
        Some (MNumber SESign
                (Number (n_neg n) (n_int n) (n_frac n) true ""), [])
      else if is_digit c then Some (MNumber SE0 with_exp, [])
      else None
  | SESign =>
      if is_digit c then Some (MNumber SE0 with_exp, []) else None
  | SE0 =>
      if is_digit c then Some (MNumber SE0 with_exp, [])
      else end_number n c
  end.

Definition step (m : mode) (c : ascii) : option (mode * list token) :=
  let b := byte_of c in
  match m with
  | MValue => step_value c
  | MString us =>
      if b =? 34 then Some (MValue, [TString (unquote 0 (rev us))])
      else if b =? 92 then Some (MEsc us, [])
      else if b <? 32 then None
      else Some (MString (URaw c :: us), [])
  | MEsc us =>
      if (b =? 92) || (b =? 47) || (b =? 34)
      then Some (MString (UEsc c :: us), [])
      else if b =? 98 then Some (MString (UEsc (chr 8) :: us), [])
      else if b =? 102 then Some (MString (UEsc (chr 12) :: us), [])
      else if b =? 110 then Some (MString (UEsc (chr 10) :: us), [])
      else if b =? 114 then Some (MString (UEsc (chr 13) :: us), [])
      else if b =? 116 then Some (MString (UEsc (chr 9) :: us), [])
      else if b =? 117 then Some (MHex us 4 0, [])
      else None
  | MHex us k r =>
      h ← hex_val c;
      let r' := 16 * r + h in
      match k with
      | 1%nat => Some (MString (UHex r' :: us), [])
      | _ => Some (MHex us (k - 1) r', [])
      end
  | MNumber st n => step_number st n c
  | MLiteral rest t =>
      match rest with
      | String c' "" =>
          if Ascii.eqb c c' then Some (MValue, [t]) else None
      | String c' rest' =>
          if Ascii.eqb c c' then Some (MLiteral rest' t, []) else None
      | "" => None
      end
  end.

(** The end of the input: only between tokens or at the end of a
    number. *)
Definition at_eof (m : mode) : option (list token) :=
  match m with
  | MValue => Some []
  | MNumber st n =>
      match st with
      | S0 | S1 | SDot0 | SE0 => Some [number_token n]
      | _ => None
      end
  | _ => None
  end.

Fixpoint scan (m : mode) (s : string) : option (list token) :=
  match s with
  | "" => at_eof m
  | String c s' =>
      '(m', ts) ← step m c;
      rest ← scan m' s';
      Some (ts ++ rest)
  end.

(** *** The decoder, token by token *)

(** An array or object being read: the elements so far (last first), or
    the members so far and the key whose value is awaited. *)
Inductive frame :=
  | FArr (elems : list value)
  | FObj (m : gmap string value) (key : string).

Inductive expect :=
  | EValue        (* a value *)
  | EArrFirst     (* after '[': a value or ']' *)
  | EObjFirst     (* after '{': a key or '}' *)
  | EKey          (* after ',' in an object: a key *)
  | EColon        (* after a key: ':' *)
  | EAfter        (* after a value: ',' or the closing bracket *)
  | EDone (v : value).

(** The decoder's state; [range_err] records a number that
    strconv.ParseFloat rejected (d.saveError). *)
Record dstate := DState {
  d_expect : expect; d_stack : list frame; d_range_err : bool }.

Definition maxNestingDepth : Z := 10000.

(** A value is complete: it is the result, or goes into the enclosing
    array or object (a repeated key overwrites). *)
Definition put (v : value) (stack : list frame) (err : bool) : dstate :=
  match stack with
  | [] => DState (EDone v) [] err
  | FArr l :: st => DState EAfter (FArr (v :: l) :: st) err
  | FObj m k :: st => DState EAfter (FObj (<[k := v]> m) k :: st) err
  end.

Definition push (f : frame) (e : expect) (stack : list frame) (err : bool)
    : option dstate :=
  if maxNestingDepth <? Z.of_nat (length (f :: stack)) then None
  else Some (DState e (f :: stack) err).

Definition begin_value (t : token) (stack : list frame) (err : bool)
    : option dstate :=
  match t with
  | TLBrace => push (FObj ∅ "") EObjFirst stack err
  | TLBrack => push (FArr []) EArrFirst stack err
  | TString s => Some (put (VString s) stack err)
  | TNumber neg int frac eneg ex =>
      match Strconv.ParseFloat neg int frac eneg ex with
      | Some f => Some (put (VFloat64 f) stack err)
      | None => Some (put (VFloat64 (S754_infinity neg)) stack true)
      end
  | TTrue => Some (put (VBool true) stack err)
  | TFalse => Some (put (VBool false) stack err)
  | TNull => Some (put VNil stack err)
  | _ => None
  end.

Definition dstep (d : dstate) (t : token) : option dstate :=
  let '(DState e stack err) := d in
  match e, t, stack with
  | EValue, _, _ => begin_value t stack err
  | EArrFirst, TRBrack, FArr l :: st => Some (put (VSlice (rev l)) st err)
  | EArrFirst, _, _ => begin_value t stack err
  | EObjFirst, TRBrace, FObj m _ :: st => Some (put (VMap m) st err)
  | (EObjFirst | EKey), TString k, FObj m _ :: st =>
      Some (DState EColon (FObj m k :: st) err)
  | EColon, TColon, _ => Some (DState EValue stack err)
  | EAfter, TComma, FArr _ :: _ => Some (DState EValue stack err)
  | EAfter, TComma, FObj _ _ :: _ => Some (DState EKey stack err)
  | EAfter, TRBrack, FArr l :: st => Some (put (VSlice (rev l)) st err)
  | EAfter, TRBrace, FObj m _ :: st => Some (put (VMap m) st err)
  | _, _, _ => None
  end.

Fixpoint decode (d : dstate) (ts : list token) : option (value * bool) :=
  match ts with
  | [] => match d_expect d with
          | EDone v => Some (v, d_range_err d)
          | _ => None
          end
  | t :: ts' => d' ← dstep d t; decode d' ts'
  end.

(** The JSON value of a text, with the range-error flag; [None] is a
    syntax error (checkValid fails). *)
Definition parse (data : string) : option (value * bool) :=
  ts ← scan MValue data;
  decode (DState EValue [] false) ts.

(** *** Unmarshal *)

(** The outcome of [json.Unmarshal(data, &logEntry)] for a
    [logEntry] of type map[string]interface{} that starts out nil:
    an error, or no error and the map, which is still nil when the
    text is [null]. *)
Inductive unmarshalled :=
  | Err
  | Ok (logEntry : option (gmap string value)).

Definition Unmarshal (data : string) : unmarshalled :=
  match parse data with
  | None => Err                                   (* SyntaxError *)
  | Some (VNil, _) => Ok None
  | Some (VMap m, range_err) => if range_err then Err else Ok (Some m)
  | Some (_, _) => Err                            (* UnmarshalTypeError *)
  end.

End Json.

(** ** package fmt: the verbs of monitor.go *)

Module Fmt.

(** fmt prints the keys of a map in increasing order. *)
Definition key_le (a b : string * string) : Prop := String.leb a.1 b.1.

Definition sorted_members (m : gmap string string) : list (string * string) :=
  merge_sort key_le (map_to_list m).

(** [%v]: a string as it is, nil as <nil>, a float64 with [%g], a slice
    as [[a b c]] and a map as [map[k:v k:v]]. *)
Fixpoint v (x : value) : string :=
  match x with
  | VNil => "<nil>"
  | VBool b => if b then "true" else "false"
  | VFloat64 f => Strconv.FormatFloat_g f
  | VString s => s
  | VSlice l => "[" +:+ Strings.Join (map v l) " " +:+ "]"
  | VMap m =>
      "map["
      +:+ Strings.Join
            (map (fun kv => kv.1 +:+ ":" +:+ kv.2) (sorted_members (v <$> m)))
            " "
      +:+ "]"
  end.

End Fmt.

(** ** The stat parsers (monitor.go, lines 277-293) *)

(** [parts[i]] and [lines[i]]: indexing panics out of range. *)
Definition index {A : Type} (l : list A) (i : nat) : option A := l !! i.

Definition parseCPUUsage (cpuStat : string) : option string :=
  let parts := Strings.Fields cpuStat in
  p1 ← index parts 1;
  p3 ← index parts 3;
  let usage := "User Space: " +:+ p1 +:+ "%; System Space: " +:+ p3 +:+ "%" in
  Some usage.

Definition parseMemoryUsage (memStat : string) : option string :=
  let lines := Strings.Split memStat LF in
  line1 ← index lines 1;
  let memParts := Strings.Fields line1 in
  total ← index memParts 1;
  used ← index memParts 2;
  let usage :=
    "Total Memory: " +:+ total +:+ " MB; Used Memory: " +:+ used +:+ " MB" in
  Some usage.

(** ** The log extractor (monitor.go, lines 221-275) *)

(** A log entry: the map a line is unmarshalled into. *)
Abbreviation entry := (gmap string value).

(** [for k, v := range m]: Go does not specify the order, so every
    order of the entries of [m] is possible. *)
Definition range {V : Type} (m : gmap string V) : list (list (string * V)) :=
  permutations (map_to_list m).

(** A loop whose body has several possible results. *)
Fixpoint foldM {A B : Type} (f : A -> B -> list A) (a : A) (l : list B)
    : list A :=
  match l with
  | [] => [a]
  | x :: l' => a' ← f a x; foldM f a' l'
  end.

(** The map literal [messageTypes]: the three watched keys, each with a
    nil entry. *)
Definition messageTypes0 : gmap string (option entry) :=
  {[ "connecting to bootstrap" := None;
     "broadcasting self-test info" := None;
     "peers in store" := None ]}.

(** [logEntry["msg"]]: nil when the map is nil or has no such key. *)
Definition msg_of (logEntry : option entry) : value :=
  match logEntry with
  | None => VNil
  | Some m => default VNil (m !! "msg")
  end.

(** The body of the first loop, on one line. *)
Definition scanLine (messageTypes : gmap string (option entry))
    (line : string) : gmap string (option entry) :=
  match Json.Unmarshal line with
  | Json.Err => messageTypes                          (* continue *)
  | Json.Ok logEntry =>
      match msg_of logEntry with
      | VString msg =>
          if decide (is_Some (messageTypes !! msg))
          then <[msg := logEntry]> messageTypes
          else messageTypes
      | _ => messageTypes                             (* continue *)
      end
  end.

(** The keys that are omitted from the output. *)
Definition strip (logEntry : entry) : entry :=
  delete "msg" (delete "caller" (delete "ts" (delete "level" logEntry))).

(** The body of the inner loop: what is written for one field.  Every
    number that Unmarshal stores is a float64, so the [int, int64] case
    of the type switch is never taken. *)
Definition writeField (kv : string * value) : string :=
  let '(key, value) := kv in
  if decide (key ≠ "msg") then
    match value with
    | VFloat64 v => "; " +:+ key +:+ ": " +:+ Strconv.FormatFloat_f0 v
    | _ => "; " +:+ key +:+ ": " +:+ Fmt.v value
    end
  else "".

(** The body of the second loop, on one key: [result] after it. *)
Definition writeEntry (result : string) (kv : string * option entry)
    : list string :=
  let '(msg, logEntry) := kv in
  match logEntry with
  | None => [result]                                  (* continue *)
  | Some logEntry =>
      let logEntry := strip logEntry in
      let result := result +:+ "{ msg: " +:+ msg in
      fields ← range logEntry;
      let result := foldl (fun r kv => r +:+ writeField kv) result fields in
      [result +:+ " }" +:+ nl]
  end.

(** [messageTypes] after the first loop. *)
Definition scanLines (logs : string) : gmap string (option entry) :=
  let lines := Strings.Split logs LF in
  foldl scanLine messageTypes0 lines.

(** The results that [extractLogMessages(logs)] can return. *)
Definition extractLogMessages (logs : string) : list string :=
  let messageTypes := scanLines logs in
  order ← range messageTypes;
  foldM writeEntry "" order.

(** ** The formatter (monitor.go, lines 202-215) *)

(** [None] when a stat parser panics; otherwise the texts that
    [formatOutput(ip, stats)] can return, one per result of the
    extractor. *)
Definition formatOutput (ip : string) (stats : list string)
    : option (list string) :=
  stats0 ← index stats 0;
  cpuUsage ← parseCPUUsage stats0;
  stats1 ← index stats 1;
  memoryUsage ← parseMemoryUsage stats1;
  let output := "[blue::b]Node: " +:+ ip +:+ nl in
  let output := output +:+ "[green::b]CPU Usage: [white]" +:+ cpuUsage +:+ nl in
  let output :=
    output +:+ "[green::b]Memory Usage: [white]" +:+ memoryUsage +:+ nl in
  stats2 ← index stats 2;
  let output :=
    output +:+ "[green::b]Storage Usage:" +:+ nl +:+ " [white]" +:+ stats2 in
  stats3 ← index stats 3;
  Some (logs ← extractLogMessages stats3;
        [output +:+ "[yellow::b]Logs: [white]" +:+ logs]).

(** ** Nodes, the SSH transport and the log readers (lines 17-64) *)

Record Node := { IP : string; Username : string; Password : string }.

Record Config := { Nodes : list Node }.

(** A call that returns a value or an [error], here its message. *)
Inductive result (A : Type) :=
  | Success (a : A)
  | Failure (err : string).
Arguments Success {A} a.
Arguments Failure {A} err.

(** The remote end, as the code sees it: [Run] answers a command with its
    standard output or an error, [NewSession] answers the n-th request
    for a session on a connection, and dialling an address with a user
    and a password gives a connection.  Every call is taken to return: a
    dial or a command that blocks for ever is not represented, so what
    is said of a pass of the poll loop is said of a pass that
    completes. *)
Record Session := { Run : string -> result string }.

Record Client := { NewSession : nat -> result Session }.

Definition Dialer : Type := string -> string -> string -> result Client.

(** A computation that runs remote commands: the commands it ran, in
    order, and its result. *)
Definition Remote (A : Type) : Type := list string * result A.

Definition ret {A : Type} (a : A) : Remote A := ([], Success a).

Definition bind {A B : Type} (m : Remote A) (k : A -> Remote B) : Remote B :=
  match m with
  | (cmds, Failure err) => (cmds, Failure err)
  | (cmds, Success a) => let '(cmds', r) := k a in (cmds ++ cmds', r)
  end.

Notation "'do' x <- m ; k" := (bind m (fun x => k))
  (at level 10, x name, m at level 100, k at level 200).

(** [fmt.Errorf(prefix + "%w", err)] around a call that ran no command. *)
Definition wrap {A : Type} (prefix : string) (r : result A) : Remote A :=
  match r with
  | Success a => ([], Success a)
  | Failure err => ([], Failure (prefix +:+ err))
  end.

(** [session.Run(cmd)] with its output in a buffer, and the error the
    callers make of a failure. *)
Definition run (session : Session) (cmd : string) : Remote string :=
  match Run session cmd with
  | Success out => ([cmd], Success out)
  | Failure err =>
      ([cmd], Failure ("failed to run command '" +:+ cmd +:+ "': " +:+ err))
  end.

(** [fmt.Errorf(prefix + "%w", err)] around a call that ran commands. *)
Definition in_context {A : Type} (prefix : string) (m : Remote A) : Remote A :=
  match m with
  | (cmds, Failure err) => (cmds, Failure (prefix +:+ err))
  | _ => m
  end.

(** The interface [LogReader]: a type with a method [ReadLogs]. *)
Class LogReader (R : Type) := ReadLogs : R -> Session -> Remote string.

Record ServiceLogReader := { ServiceName : string }.

Record TmuxLogReader := { PaneName : string }.

(** The grep that both readers pipe their lines through. *)
Definition grep_watched : string :=
  "grep -E '" +:+ dq "'msg':'"
  +:+ "(connecting to bootstrap|broadcasting self-test info|peers in store)"
  +:+ dq "'" +:+ "'".

(** The [cmd] of [ServiceLogReader.ReadLogs] and of
    [TmuxLogReader.ReadLogs]. *)
Definition ServiceLogReader_cmd (s : ServiceLogReader) : string :=
  "journalctl -u " +:+ ServiceName s
  +:+ ".service -n 50 --no-hostname -o cat | " +:+ grep_watched.

Definition TmuxLogReader_cmd (t : TmuxLogReader) : string :=
  "tmux capture-pane -t " +:+ PaneName t +:+ " -pS -100 | " +:+ grep_watched
  +:+ " | tail -n 200".

#[export] Instance ServiceLogReader_ReadLogs : LogReader ServiceLogReader :=
  fun s session => run session (ServiceLogReader_cmd s).

#[export] Instance TmuxLogReader_ReadLogs : LogReader TmuxLogReader :=
  fun t session => run session (TmuxLogReader_cmd t).

(** The reader that [main] builds. *)
Definition ceremonyclient : ServiceLogReader :=
  {| ServiceName := "ceremonyclient" |}.

(** ** The per-node fetch (monitor.go, lines 148-200) *)

Definition statsCommands : list string :=
  ["top -b -n 1 | grep 'Cpu(s)'"; "free -m"; "df -h /"].

(** The loop over [statsCommands]; [n] counts the sessions opened. *)
Fixpoint runStats (conn : Client) (n : nat) (cmds : list string)
    (stats : list string) : Remote (list string) :=
  match cmds with
  | [] => ret stats
  | cmd :: cmds' =>
      do session <- wrap "failed to create session: " (NewSession conn n);
      do out <- run session cmd;
      runStats conn (S n) cmds' (stats ++ [out])
  end.

(** The commands run, and: an error, or what [formatOutput] makes of the
    four outputs. *)
Definition getNodeStatus {R : Type} `{LogReader R} (ssh_Dial : Dialer)
    (node : Node) (logReader : R) : Remote (option (list string)) :=
  do conn <- wrap "failed to dial: "
               (ssh_Dial (IP node +:+ ":22") (Username node) (Password node));
  do stats <- runStats conn 0 statsCommands [];
  do session <- wrap "failed to create session: " (NewSession conn 3);
  do logs <- in_context "failed to read logs: " (ReadLogs logReader session);
  let stats := stats ++ [logs] in
  ret (formatOutput (IP node) stats).

(** ** One pass of the poll loop (monitor.go, lines 115-141) *)

(** The calls on the display: [textViews[i].SetText(text)], and
    [app.QueueUpdateDraw(f)] with the calls that [f] makes when the
    event loop runs it. *)
Inductive call :=
  | SetText (i : nat) (text : string)
  | QueueUpdateDraw (f : list call).

(** The body of the goroutine of node [i]: the commands it runs on the
    node, and the sequences of display calls it can make, or [None] when
    it panics. *)
Definition nodeTask (ssh_Dial : Dialer) (i : nat) (node : Node)
    : list string * option (list (list call)) :=
  let logReader := {| ServiceName := "ceremonyclient" |} in
  let '(cmds, r) := getNodeStatus ssh_Dial node logReader in
  (cmds,
   match r with
   | Failure err =>
       let text :=
         "Error fetching status for node " +:+ IP node +:+ ": " +:+ err in
       Some [[SetText i text; QueueUpdateDraw [SetText i text]]]
   | Success None => None
   | Success (Some outputs) =>
       Some ((fun output =>
                [SetText i output; QueueUpdateDraw [SetText i output]])
             <$> outputs)
   end).

(** The goroutines run concurrently: their calls are interleaved, each
    goroutine's own calls in order. *)
Inductive interleaving {A : Type} : list (list A) -> list A -> Prop :=
  | interleaving_done (tasks : list (list A)) :
      Forall (fun t => t = []) tasks -> interleaving tasks []
  | interleaving_step (tasks : list (list A)) (j : nat) (x : A)
      (t tr : list A) :
      tasks !! j = Some (x :: t) ->
      interleaving (<[j := t]> tasks) tr ->
      interleaving tasks (x :: tr).

(** One pass of the loop, from the fan-out to [wg.Wait()]: the display
    calls made, when no goroutine panics. *)
Definition pollCycle (ssh_Dial : Dialer) (config : Config)
    (calls : list call) : Prop :=
  exists tasks : list (list call),
    Forall2 (fun (n : nat * Node) (t : list call) =>
               exists alts, (nodeTask ssh_Dial n.1 n.2).2 = Some alts /\ t ∈ alts)
      (imap pair (Nodes config)) tasks
    /\ interleaving tasks calls.

(** The invocations of SetText that a call amounts to, the queued ones
    included: slot and text. *)
Fixpoint setTexts (c : call) : list (nat * string) :=
  match c with
  | SetText i text => [(i, text)]
  | QueueUpdateDraw f => flat_map setTexts f
  end.

(** The texts written to slot [i] by a sequence of calls. *)
Definition written (i : nat) (calls : list call) : list string :=
  snd <$> filter (fun p => p.1 = i) (flat_map setTexts calls).

(** ** Vocabulary of the statements *)

(** The message and the entry of a line that the first loop of the
    extractor does not skip: the line unmarshals without error into a
    map whose "msg" is a string. *)
Definition record (line : string) : option (string * entry) :=
  match Json.Unmarshal line with
  | Json.Ok (Some logEntry) =>
      match logEntry !! "msg" with
      | Some (VString msg) => Some (msg, logEntry)
      | _ => None
      end
  | _ => None
  end.

(** A line that is not valid JSON, or is a JSON record without a string
    "msg". *)
Definition noise (line : string) : bool :=
  match Json.parse line with
  | None => true
  | Some (VMap logEntry, _) =>
      match logEntry !! "msg" with
      | Some (VString _) => false
      | _ => true
      end
  | Some _ => false
  end.

(** The watched message keys. *)
Definition watched : list string :=
  ["connecting to bootstrap"; "broadcasting self-test info"; "peers in store"].

(** LatestLogByKey: the entry stored for a key after the first loop. *)
Definition latest (logs : string) (key : string) : option entry :=
  mjoin (scanLines logs !! key).

(** The line that the second loop writes for key [msg] when the inner
    loop visits the fields in the order [fields]. *)
Definition logLine (msg : string) (fields : list (string * value)) : string :=
  "{ msg: " +:+ msg +:+ String.concat "" (writeField <$> fields)
  +:+ " }" +:+ nl.

(** The text made of the lines of the keys [ls], in that order. *)
Definition logLines (ls : list (string * list (string * value))) : string :=
  String.concat "" ((fun l => logLine l.1 l.2) <$> ls).

(** [ls] is what one run of the extractor on [logs] emits: one line for
    each key that has a stored entry, with the fields that are left of
    the entry, in some order. *)
Definition emission (logs : string)
    (ls : list (string * list (string * value))) : Prop :=
  NoDup ls.*1
  /\ (forall key, key ∈ ls.*1 <-> is_Some (latest logs key))
  /\ (forall key fields, (key, fields) ∈ ls ->
        exists logEntry, latest logs key = Some logEntry
                         /\ fields ≡ₚ map_to_list (strip logEntry)).

(** The lines that the second loop can emit when it visits the keys in
    the order [order]: none for a nil entry, one for an entry, with its
    fields in some order. *)
Inductive picks :
    list (string * option entry) -> list (string * list (string * value))
    -> Prop :=
  | picks_nil : picks [] []
  | picks_skip msg order ls :
      picks order ls -> picks ((msg, None) :: order) ls
  | picks_line msg logEntry fields order ls :
      fields ≡ₚ map_to_list (strip logEntry) ->
      picks order ls ->
      picks ((msg, Some logEntry) :: order) ((msg, fields) :: ls).

(** A byte occurs in a string. *)
Fixpoint contains (c : ascii) (s : string) : bool :=
  match s with
  | "" => false
  | String c' s' => Ascii.eqb c' c || contains c s'
  end.

(** A token of plain ASCII: not empty, every byte below 0x80 and not
    white space. *)
Definition plain_byte (c : ascii) : bool :=
  (byte_of c <? 128) && negb (Utf8.IsSpace (byte_of c)).

Definition space_byte (c : ascii) : bool :=
  (byte_of c <? 128) && Utf8.IsSpace (byte_of c).

Fixpoint all_bytes (p : ascii -> bool) (s : string) : bool :=
  match s with
  | "" => true
  | String c s' => p c && all_bytes p s'
  end.

Definition digit_byte (c : ascii) : bool := Utf8.in_range 48 57 (byte_of c).

Definition token (w : string) : Prop :=
  w <> "" /\ all_bytes plain_byte w = true.

Definition spaces (w : string) : Prop :=
  w <> "" /\ all_bytes space_byte w = true.

(** ** The grid of text views (monitor.go, lines 104-112) *)

(** [grid.AddItem(textView, i/2, i%2, 1, 1, 0, 0, false)]: the row and
    the column of the view of node [i]; every view spans one cell. *)
Definition gridCell (i : nat) : nat * nat := (i / 2, i mod 2)%nat.

(** The cells of the views that the set-up loop of [main] adds, one per
    node. *)
Definition gridItems (config : Config) : list (nat * nat) :=
  imap (fun i _ => gridCell i) (Nodes config).

(** ** The text views *)

(** The texts of the views after a sequence of display calls:
    [textViews[i].SetText(text)] replaces the text of view [i]. *)
Definition display (calls : list call) (textViews : list string)
    : list string :=
  foldl (fun tv p => <[p.1 := p.2]> tv) textViews (flat_map setTexts calls).

(** ** More vocabulary *)

(** The entry of a line that is a record for [key]. *)
Definition recordFor (key line : string) : option entry :=
  match record line with
  | Some (msg, logEntry) => if decide (msg = key) then Some logEntry else None
  | None => None
  end.

(** The entry of the last line that is a record for [key]. *)
Definition lastRecord (key : string) (lines : list string) : option entry :=
  last (omap (recordFor key) lines).

(** A line that is a record for a watched key. *)
Definition watched_record (line : string) : bool :=
  match record line with
  | Some (msg, _) => bool_decide (msg ∈ watched)
  | None => false
  end.

(** The keys that the second loop deletes from an entry. *)
Definition deleted : list string := ["level"; "ts"; "caller"; "msg"].

(** ** The output text in the words of the specification *)

(** The specification renders the fields that are left as
    [{ msg: <key>; field: value; ... }], one line per key, numbers
    without decimal places.  These definitions follow those words; they
    do not use the code's [writeField], [strip] and [logLine], and are
    compared with them in the properties. *)

(** A number without decimal places, any other value as [%v] prints
    it. *)
Definition valueText (v : value) : string :=
  match v with
  | VFloat64 f => Strconv.FormatFloat_f0 f
  | _ => Fmt.v v
  end.

Definition fieldText (kv : string * value) : string :=
  "; " +:+ kv.1 +:+ ": " +:+ valueText kv.2.

Definition lineText (key : string) (fields : list (string * value))
    : string :=
  "{ msg: " +:+ key +:+ String.concat "" (fieldText <$> fields)
  +:+ " }" +:+ nl.

Definition linesText (ls : list (string * list (string * value))) : string :=
  String.concat "" ((fun l => lineText l.1 l.2) <$> ls).

(** The fields of a record that are shown: all but level, ts, caller and
    msg. *)
Definition shown (logEntry : entry) : entry :=
  filter (fun kv => kv.1 ∉ deleted) logEntry.

(** A line of a text reads as the line of [key]. *)
Definition line_for (key l : string) : Prop :=
  exists fields, l +:+ nl = lineText key fields.

(** A float64 that is neither an infinity nor a NaN. *)
Definition is_finite (f : Strconv.float64) : Prop :=
  match f with S754_zero _ | S754_finite _ _ _ => True | _ => False end.

(** The numbers that are members of an object are finite. *)
Definition finite_members (m : gmap string value) : Prop :=
  forall k f, m !! k = Some (VFloat64 f) -> is_finite f.

(** The same for a value, for an object that the decoder is reading,
    and for the decoder's state as long as it has recorded no number
    out of range. *)
Definition finite_value (v : value) : Prop :=
  match v with
  | VFloat64 f => is_finite f
  | VMap m => finite_members m
  | _ => True
  end.

Definition finite_frame (f : Json.frame) : Prop :=
  match f with
  | Json.FObj m _ => finite_members m
  | Json.FArr _ => True
  end.

Definition finite_state (d : Json.dstate) : Prop :=
  Json.d_range_err d = false ->
  Forall finite_frame (Json.d_stack d)
  /\ match Json.d_expect d with
     | Json.EDone v => finite_value v
     | _ => True
     end.

(** The report that [formatOutput] builds from the two percentages, the
    two amounts of memory, the storage text and the log text. *)
Definition reportText (ip user system total used storage logs : string)
    : string :=
  "[blue::b]Node: " +:+ ip +:+ nl
  +:+ "[green::b]CPU Usage: [white]User Space: " +:+ user
  +:+ "%; System Space: " +:+ system +:+ "%" +:+ nl
  +:+ "[green::b]Memory Usage: [white]Total Memory: " +:+ total
  +:+ " MB; Used Memory: " +:+ used +:+ " MB" +:+ nl
  +:+ "[green::b]Storage Usage:" +:+ nl +:+ " [white]" +:+ storage
  +:+ "[yellow::b]Logs: [white]" +:+ logs.

(** [text] is what the goroutine of [node] shows: one of the reports of
    the node when its fetch returns without error, its error text when
    the fetch fails. *)
Definition slotText (ssh_Dial : Dialer) (node : Node) (text : string) : Prop :=
  match (getNodeStatus ssh_Dial node ceremonyclient).2 with
  | Failure err =>
      text = "Error fetching status for node " +:+ IP node +:+ ": " +:+ err
  | Success (Some outputs) => text ∈ outputs
  | Success None => False
  end.

(** ** Samples *)

Definition line_peers_12 : string :=
  dq "{'msg':'peers in store','level':'info','ts':'x','caller':'y','count':12}".

Definition line_peers_15 : string :=
  dq "{'msg':'peers in store','count':15}".

Definition line_bootstrap : string :=
  dq "{'msg':'connecting to bootstrap','level':'info'}".

Definition top_line : string :=
  "%Cpu(s):  3.1 us,  1.2 sy,  0.0 ni, 95.7 id,  0.0 wa,  0.0 hi,  0.0 si"
  +:+ nl.

Definition free_output : string :=
  "               total        used        free      shared  buff/cache"
  +:+ nl +:+
  "Mem:            7976        1234        5120          12        1622"
  +:+ nl +:+
  "Swap:           2047           0        2047" +:+ nl.

Definition df_output : string :=
  "Filesystem      Size  Used Avail Use% Mounted on" +:+ nl +:+
  "/dev/sda1        78G   21G   54G  28% /" +:+ nl.

(** The entry that the second sample line unmarshals into. *)
Definition entry_peers_15 : entry :=
  match Json.Unmarshal line_peers_15 with
  | Json.Ok (Some logEntry) => logEntry
  | _ => ∅
  end.

(** A sample with records for two watched keys, and the two texts the
    extractor can make of it. *)
Definition two_keys : string := line_bootstrap +:+ nl +:+ line_peers_15.

(** One line, a record for "peers in store" only, whose field [x] is a
    string with an escaped line feed in it. *)
Definition line_feed_in_field : string :=
  dq "{'msg':'peers in store','x':'y }\n{ msg: connecting to bootstrap'}".

(** Two lines, with a record for each of the two keys. *)
Definition two_records : string :=
  dq "{'msg':'peers in store','x':'y'}" +:+ nl
  +:+ dq "{'msg':'connecting to bootstrap'}".

Definition bootstrap_first : string :=
  "{ msg: connecting to bootstrap }" +:+ nl
  +:+ "{ msg: peers in store; count: 15 }" +:+ nl.

Definition peers_first : string :=
  "{ msg: peers in store; count: 15 }" +:+ nl
  +:+ "{ msg: connecting to bootstrap }" +:+ nl.

(** A node that answers every command, and one that cannot be reached. *)
Definition healthy_session : Session :=
  {| Run := fun cmd =>
       if decide (cmd = "top -b -n 1 | grep 'Cpu(s)'") then Success top_line
       else if decide (cmd = "free -m") then Success free_output
       else if decide (cmd = "df -h /") then Success df_output
       else if decide (cmd = ServiceLogReader_cmd ceremonyclient)
       then Success (line_peers_12 +:+ nl +:+ line_peers_15 +:+ nl)
       else Failure "Process exited with status 127" |}.

Definition healthy : Dialer :=
  fun _ _ _ => Success {| NewSession := fun _ => Success healthy_session |}.

Definition unreachable : Dialer :=
  fun _ _ _ => Failure "dial tcp: i/o timeout".

Definition node1 : Node :=
  {| IP := "12.13.14.15"; Username := "user1"; Password := "password1" |}.

Definition node2 : Node :=
  {| IP := "16.17.18.19"; Username := "user2"; Password := "password2" |}.

(** A node on which the logs are in the tmux pane [q]. *)
Definition pane_q : TmuxLogReader := {| PaneName := "q" |}.

Definition tmux_session : Session :=
  {| Run := fun cmd =>
       if decide (cmd = TmuxLogReader_cmd pane_q)
       then Success (line_peers_15 +:+ nl)
       else Run healthy_session cmd |}.

Definition tmux_host : Dialer :=
  fun _ _ _ => Success {| NewSession := fun _ => Success tmux_session |}.

(** A network in which only [node1] can be reached. *)
Definition one_down : Dialer :=
  fun addr user password =>
    if decide (addr = "12.13.14.15:22") then healthy addr user password
    else unreachable addr user password.

Definition two_nodes : Config := {| Nodes := [node1; node2] |}.


Definition error2 : string :=
  "Error fetching status for node 16.17.18.19: "
  +:+ "failed to dial: dial tcp: i/o timeout".

(** The report of [node1] when it answers as [healthy_session] does. *)
Definition report1 : string :=
  "[blue::b]Node: 12.13.14.15" +:+ nl
  +:+ "[green::b]CPU Usage: [white]User Space: 3.1%; System Space: 1.2%"
  +:+ nl
  +:+ "[green::b]Memory Usage: [white]"
  +:+ "Total Memory: 7976 MB; Used Memory: 1234 MB" +:+ nl
  +:+ "[green::b]Storage Usage:" +:+ nl +:+ " [white]" +:+ df_output
  +:+ "[yellow::b]Logs: [white]{ msg: peers in store; count: 15 }" +:+ nl.


(** * Properties *)

(** ** The library models on examples *)

Example ParseFloat_15 :
  Strconv.FormatFloat_f0 <$> Strconv.ParseFloat false "15" "" false ""
  = Some "15".
Proof. vm_compute. reflexivity. Qed.

(** [%.0f] rounds ties to even, and keeps the sign of a zero. *)
Example FormatFloat_f0_ties :
  (fun '(int, frac) =>
     Strconv.FormatFloat_f0 <$> Strconv.ParseFloat true int frac false "")
  <$> [("0", "5"); ("1", "5"); ("2", "5"); ("0", "")]
  = [Some "-0"; Some "-2"; Some "-2"; Some "-0"].
Proof. vm_compute. reflexivity. Qed.

(** A number past the largest float64 is a range error. *)
Example ParseFloat_range :
  Strconv.ParseFloat false "1" "" false "309" = None
  /\ Strconv.FormatFloat_g
       <$> Strconv.ParseFloat false "1" "7976931348623157" false "308"
     = Some "1.7976931348623157e+308".
Proof. vm_compute. done. Qed.

Example Unmarshal_null : Json.Unmarshal "null" = Json.Ok None.
Proof. vm_compute. reflexivity. Qed.

Example Unmarshal_not_a_map :
  Json.Unmarshal <$> ["[1,2]"; "12"; "true"; dq "'peers in store'"]
  = [Json.Err; Json.Err; Json.Err; Json.Err].
Proof. vm_compute. reflexivity. Qed.

Example Unmarshal_syntax :
  Json.Unmarshal
  <$> [""; "-- No entries --"; dq "{'msg':'peers in store'";
       dq "{'msg':'peers in store',}"; "{} {}"; "01"]
  = replicate 6 Json.Err.
Proof. vm_compute. reflexivity. Qed.

(** A repeated key keeps its last value; escapes are decoded. *)
Example Unmarshal_members :
  match Json.Unmarshal (dq "{'a':1,'b':'xA\n','a':[true,null,{}]}") with
  | Json.Ok (Some m) => map_to_list (Fmt.v <$> m)
  | _ => []
  end
  = [("a", "[true <nil> map[]]"); ("b", "xA" +:+ nl)].
Proof. vm_compute. reflexivity. Qed.

(** A number that is a field of the entry is written with [%.0f]; inside
    a slice it is written with [%v]. *)
Example numbers_written :
  extractLogMessages (dq "{'msg':'peers in store','n':[1000000,0.1,2.5,-3]}")
  = replicate 6 ("{ msg: peers in store; n: [1e+06 0.1 2.5 -3] }" +:+ nl)
  /\ extractLogMessages (dq "{'msg':'peers in store','n':2.5}")
     = replicate 6 ("{ msg: peers in store; n: 2 }" +:+ nl).
Proof. split; vm_compute; reflexivity. Qed.

(** A line whose number is out of range is no record: Unmarshal returns
    an error and the loop skips it. *)
Example record_range_error :
  record (dq "{'msg':'peers in store','count':1e999}") = None.
Proof. vm_compute. reflexivity. Qed.

Example parseCPUUsage_top :
  parseCPUUsage "%Cpu(s):  3.1 us,  1.2 sy,  0.0 ni, 95.7 id"
  = Some "User Space: 3.1%; System Space: 1.2%".
Proof. vm_compute. reflexivity. Qed.

(** A node whose [top] prints no Cpu(s) line with four tokens makes the
    goroutine panic. *)
Example formatOutput_panics :
  formatOutput "12.13.14.15" ["Cpu(s): 3.1 us"; free_output; df_output; ""]
  = None.
Proof. vm_compute. reflexivity. Qed.

(** ** Strings *)

Lemma app_cons (x : ascii) (a b : string) :
  String x a +:+ b = String x (a +:+ b).
Proof. reflexivity. Qed.

Lemma app_empty_l (a : string) : "" +:+ a = a.
Proof. reflexivity. Qed.

Lemma app_assoc_s (a b c : string) : (a +:+ b) +:+ c = a +:+ (b +:+ c).
Proof.
  induction a as [|x a IH]; [reflexivity |].
  by rewrite !app_cons, IH.
Qed.

Lemma app_empty_r (a : string) : a +:+ "" = a.
Proof.
  induction a as [|x a IH]; [reflexivity |].
  by rewrite app_cons, IH.
Qed.

Lemma substring_0_0 (s : string) : String.substring 0 0 s = "".
Proof. by destruct s. Qed.

Section split.

Variable sep : ascii.

Lemma Split_not_nil (s : string) : Strings.Split s sep <> [].
Proof.
  induction s as [|c s IH]; simpl; [done |].
  destruct (Ascii.eqb c sep); [done |].
  by destruct (Strings.Split s sep).
Qed.

(** No piece contains the separator. *)
Lemma Split_pieces (s : string) :
  Forall (fun w => contains sep w = false) (Strings.Split s sep).
Proof.
  induction s as [|c s IH]; simpl.
  - by constructor.
  - destruct (Ascii.eqb c sep) eqn:E.
    + by constructor.
    + destruct (Strings.Split s sep) as [|w ws].
      * constructor; [by simpl; rewrite E | constructor].
      * inversion IH; subst. constructor; [| done].
        simpl. rewrite E. done.
Qed.

Lemma Split_piece (w : string) :
  contains sep w = false -> Strings.Split w sep = [w].
Proof.
  induction w as [|c w IH]; simpl; [done |].
  destruct (Ascii.eqb c sep); [done |]. simpl.
  intros H. by rewrite IH.
Qed.

Lemma Split_app (w s : string) :
  contains sep w = false ->
  Strings.Split (w +:+ String sep s) sep = w :: Strings.Split s sep.
Proof.
  induction w as [|c w IH].
  - intros _. rewrite app_empty_l. simpl. by rewrite Ascii.eqb_refl.
  - rewrite app_cons. simpl.
    destruct (Ascii.eqb c sep); [done |]. simpl.
    intros H. by rewrite IH.
Qed.

(** Splitting what was joined gives the pieces back. *)
Lemma Split_Join (ws : list string) :
  ws <> [] ->
  Forall (fun w => contains sep w = false) ws ->
  Strings.Split (Strings.Join ws (String sep "")) sep = ws.
Proof.
  induction ws as [|w ws IH]; [done |].
  intros _ Hall. inversion Hall as [|? ? Hw Hws]; subst.
  destruct ws as [|w' ws].
  - simpl. by apply Split_piece.
  - change (Strings.Join (w :: w' :: ws) (String sep ""))
      with (w +:+ String sep "" +:+ Strings.Join (w' :: ws) (String sep "")).
    rewrite app_cons, app_empty_l.
    rewrite Split_app by done. f_equal. by apply IH.
Qed.

(** Joining the pieces gives the text back. *)
Lemma Join_Split (s : string) :
  Strings.Join (Strings.Split s sep) (String sep "") = s.
Proof.
  induction s as [|c s IH]; [done |]. simpl.
  destruct (Ascii.eqb c sep) eqn:E.
  - apply Ascii.eqb_eq in E as ->.
    pose proof (Split_not_nil s) as Hne.
    destruct (Strings.Split s sep) as [|w ws] eqn:Es; [done |].
    change (Strings.Join ("" :: w :: ws) (String sep ""))
      with ("" +:+ String sep "" +:+ Strings.Join (w :: ws) (String sep "")).
    by rewrite app_empty_l, app_cons, app_empty_l, IH.
  - destruct (Strings.Split s sep) as [|w [|w' ws]] eqn:Es.
    + by destruct (Split_not_nil s).
    + simpl in *. by rewrite IH.
    + change (Strings.Join (String c w :: w' :: ws) (String sep ""))
        with (String c w +:+ String sep ""
              +:+ Strings.Join (w' :: ws) (String sep "")).
      rewrite app_cons. f_equal. exact IH.
Qed.

End split.

(** ** Fields on plain ASCII text *)

Lemma runes_ascii (c : ascii) (s : string) :
  (byte_of c <? 128) = true ->
  Utf8.runes (String c s) = (byte_of c, String c "") :: Utf8.runes s.
Proof.
  intros H. unfold Utf8.runes. simpl. rewrite H. simpl.
  by rewrite substring_0_0.
Qed.

Lemma fields_of_token (w : string) :
  all_bytes plain_byte w = true ->
  forall (cur : option string) (rest : string),
    Strings.fields_of Utf8.IsSpace cur (Utf8.runes (w +:+ rest))
    = Strings.fields_of Utf8.IsSpace
        (match w with "" => cur | _ => Some (default "" cur +:+ w) end)
        (Utf8.runes rest).
Proof.
  induction w as [|c w IH]; [done |]. simpl.
  intros [Hc Hw]%andb_prop cur rest.
  apply andb_prop in Hc as [Hlt Hsp].
  rewrite app_cons, runes_ascii by done. simpl.
  apply negb_true_iff in Hsp. rewrite Hsp.
  rewrite IH by done.
  destruct w; [done |]. simpl.
  by rewrite app_assoc_s, app_cons, app_empty_l.
Qed.

Lemma fields_of_space (c : ascii) (s : string) (cur : option string) :
  space_byte c = true ->
  Strings.fields_of Utf8.IsSpace cur (Utf8.runes (String c s))
  = match cur with
    | Some w => w :: Strings.fields_of Utf8.IsSpace None (Utf8.runes s)
    | None => Strings.fields_of Utf8.IsSpace None (Utf8.runes s)
    end.
Proof.
  intros [Hlt Hsp]%andb_prop.
  rewrite runes_ascii by done. simpl. by rewrite Hsp.
Qed.

(** White space before the text is dropped. *)
Lemma Fields_spaces (sp rest : string) :
  all_bytes space_byte sp = true ->
  Strings.Fields (sp +:+ rest) = Strings.Fields rest.
Proof.
  unfold Strings.Fields, Strings.FieldsFunc.
  induction sp as [|c sp IH]; [done |]. simpl.
  intros [Hc Hsp]%andb_prop.
  rewrite app_cons, fields_of_space by done. by apply IH.
Qed.

(** A token followed by white space, or by the end, is a field. *)
Lemma Fields_token (w sp rest : string) :
  token w -> spaces sp ->
  Strings.Fields (w +:+ sp +:+ rest) = w :: Strings.Fields (sp +:+ rest).
Proof.
  intros [Hne Hw] [Hsne Hsp].
  unfold Strings.Fields, Strings.FieldsFunc.
  rewrite fields_of_token by done.
  destruct w as [|c w]; [done |].
  destruct sp as [|d sp]; [done |]. simpl in Hsp.
  apply andb_prop in Hsp as [Hd Hsp].
  rewrite !app_cons, !fields_of_space by done. done.
Qed.

Lemma Fields_last_token (w : string) :
  token w -> Strings.Fields w = [w].
Proof.
  intros [Hne Hw].
  unfold Strings.Fields, Strings.FieldsFunc.
  rewrite <- (app_empty_r w) at 1.
  rewrite fields_of_token by done.
  by destruct w.
Qed.

(** ** Numbers are written without decimal places *)

Lemma string_of_uint_digits (d : Decimal.uint) :
  all_bytes digit_byte (NilEmpty.string_of_uint d) = true.
Proof. induction d; simpl; try done; by rewrite IHd. Qed.

Lemma itoa_digits (z : Z) :
  Strconv.itoa z <> "" /\ all_bytes digit_byte (Strconv.itoa z) = true.
Proof.
  unfold Strconv.itoa, NilZero.string_of_uint.
  destruct (N.to_uint (Z.to_N z)) eqn:E; simpl; try done;
    (split; [done | apply string_of_uint_digits]).
Qed.

(** [%.0f] of a finite float64 is a string of digits, after a minus sign
    when the float is negative: there is no decimal point and no
    exponent. *)
Lemma FormatFloat_f0_digits (f : Strconv.float64) :
  match f with S754_zero _ | S754_finite _ _ _ => True | _ => False end ->
  exists (neg : bool) (digits : string),
    Strconv.FormatFloat_f0 f = (if neg then "-" else "") +:+ digits
    /\ digits <> "" /\ all_bytes digit_byte digits = true.
Proof.
  destruct f as [s|s| |s m e]; try done; intros _; simpl.
  - exists s, "0". by destruct s.
  - eexists s, _. split; [reflexivity |]. apply itoa_digits.
Qed.

(** What strconv.ParseFloat returns is a zero or a finite float. *)
Lemma ParseFloat_finite (neg eneg : bool) (int frac edigits : string)
    (f : Strconv.float64) :
  Strconv.ParseFloat neg int frac eneg edigits = Some f ->
  match f with S754_zero _ | S754_finite _ _ _ => True | _ => False end.
Proof.
  unfold Strconv.ParseFloat. intros H.
  repeat (case_match; simplify_eq); done.
Qed.

(** ** The stat parsers *)

(** C5. For every CPU-summary line with at least four white-space
    separated tokens, the CPU parser returns the usage string that holds
    the 2nd token as the user-space percentage and the 4th token as the
    system-space percentage, both verbatim. *)
Theorem parseCPUUsage_tokens (cpuStat : string) :
  (4 <= length (Strings.Fields cpuStat))%nat ->
  exists t1 t2 t3 t4 more,
    Strings.Fields cpuStat = t1 :: t2 :: t3 :: t4 :: more
    /\ parseCPUUsage cpuStat
       = Some ("User Space: " +:+ t2 +:+ "%; System Space: " +:+ t4 +:+ "%").
Proof.
  intros H. unfold parseCPUUsage.
  destruct (Strings.Fields cpuStat) as [|t1 [|t2 [|t3 [|t4 more]]]];
    simpl in H; try lia.
  by exists t1, t2, t3, t4, more.
Qed.

Lemma parseCPUUsage_tokens_witness :
  (4 <= length (Strings.Fields top_line))%nat
  /\ exists t1 t2 t3 t4 more,
       Strings.Fields top_line = t1 :: t2 :: t3 :: t4 :: more
       /\ parseCPUUsage top_line
          = Some ("User Space: " +:+ t2 +:+ "%; System Space: " +:+ t4 +:+ "%").
Proof.
  split; [vm_compute; lia | apply (parseCPUUsage_tokens top_line); vm_compute; lia].
Defined.

(** X3. The same on the text of the line: four plain tokens, white
    space between them and around them, anything after: the usage string
    holds the second and the fourth token. *)
Lemma parseCPUUsage_line (lead t1 s1 t2 s2 t3 s3 t4 s4 rest : string) :
  all_bytes space_byte lead = true ->
  token t1 -> spaces s1 -> token t2 -> spaces s2 ->
  token t3 -> spaces s3 -> token t4 -> spaces s4 ->
  parseCPUUsage
    (lead +:+ t1 +:+ s1 +:+ t2 +:+ s2 +:+ t3 +:+ s3 +:+ t4 +:+ s4 +:+ rest)
  = Some ("User Space: " +:+ t2 +:+ "%; System Space: " +:+ t4 +:+ "%").
Proof.
  intros Hlead H1 Hs1 H2 Hs2 H3 Hs3 H4 Hs4. unfold parseCPUUsage.
  rewrite Fields_spaces by done.
  rewrite (Fields_token t1) by done.
  rewrite (Fields_spaces s1) by apply Hs1.
  rewrite (Fields_token t2) by done.
  rewrite (Fields_spaces s2) by apply Hs2.
  rewrite (Fields_token t3) by done.
  rewrite (Fields_spaces s3) by apply Hs3.
  rewrite (Fields_token t4) by done.
  reflexivity.
Qed.

(** C9. The CPU parser returns a result exactly when the line has at
    least four white-space separated tokens, and panics on an index out
    of range exactly when it has fewer. *)
Theorem parseCPUUsage_total (cpuStat : string) :
  (is_Some (parseCPUUsage cpuStat)
   <-> (4 <= length (Strings.Fields cpuStat))%nat)
  /\ (parseCPUUsage cpuStat = None
      <-> (length (Strings.Fields cpuStat) < 4)%nat).
Proof.
  unfold parseCPUUsage.
  destruct (Strings.Fields cpuStat) as [|t1 [|t2 [|t3 [|t4 more]]]]; simpl;
    (split; split; intros H;
     try done; try lia; try (by destruct H); try (by eexists)).
Qed.

Example parseCPUUsage_short : parseCPUUsage "Cpu(s): 3.1 us" = None.
Proof. vm_compute. reflexivity. Qed.

(** C6. For every memory summary of at least three lines whose second
    line has at least three white-space separated tokens, the memory
    parser returns the usage string that holds the second line's 2nd
    token as the total and its 3rd token as the used memory, in MB. *)
Theorem parseMemoryUsage_tokens (memStat line2 : string) :
  (3 <= length (Strings.Split memStat LF))%nat ->
  Strings.Split memStat LF !! 1%nat = Some line2 ->
  (3 <= length (Strings.Fields line2))%nat ->
  exists t1 total used more,
    Strings.Fields line2 = t1 :: total :: used :: more
    /\ parseMemoryUsage memStat
       = Some ("Total Memory: " +:+ total +:+ " MB; Used Memory: " +:+ used
               +:+ " MB").
Proof.
  intros _ Hline H. unfold parseMemoryUsage, index. rewrite Hline. simpl.
  destruct (Strings.Fields line2) as [|t1 [|total [|used more]]];
    simpl in H; try lia.
  by exists t1, total, used, more.
Qed.

Lemma parseMemoryUsage_tokens_witness :
  exists line2,
    (3 <= length (Strings.Split free_output LF))%nat
    /\ Strings.Split free_output LF !! 1%nat = Some line2
    /\ (3 <= length (Strings.Fields line2))%nat
    /\ parseMemoryUsage free_output
       = Some "Total Memory: 7976 MB; Used Memory: 1234 MB".
Proof.
  eexists. split; [vm_compute; lia |]. split; [vm_compute; reflexivity |].
  split; [vm_compute; lia |].
  destruct (parseMemoryUsage_tokens free_output _ ltac:(vm_compute; lia)
              ltac:(vm_compute; reflexivity) ltac:(vm_compute; lia))
    as (t1 & total & used & more & Hf & Hp).
  rewrite Hp. vm_compute in Hf. by inversion Hf.
Defined.

(** ** The log extractor: the first loop *)

Lemma scanLine_record (m : gmap string (option entry)) (line : string) :
  scanLine m line
  = match record line with
    | Some (msg, logEntry) =>
        if decide (is_Some (m !! msg)) then <[msg := Some logEntry]> m else m
    | None => m
    end.
Proof.
  unfold scanLine, record, msg_of.
  destruct (Json.Unmarshal line) as [|[logEntry|]]; simpl; try done.
  destruct (logEntry !! "msg") as [[]|]; simpl; done.
Qed.

(** The first loop neither adds nor removes a key. *)
Lemma scan_keys (lines : list string) :
  forall (m : gmap string (option entry)) (key : string),
    is_Some (foldl scanLine m lines !! key) <-> is_Some (m !! key).
Proof.
  induction lines as [|line lines IH]; intros m key; simpl; [done |].
  rewrite IH, scanLine_record.
  destruct (record line) as [[msg logEntry]|]; [| done].
  case_decide as Hm; [| done].
  destruct (decide (msg = key)) as [->|Hne].
  - rewrite lookup_insert_eq. split; [done | by eexists].
  - by rewrite lookup_insert_ne.
Qed.

(** Lines that are no record for [key] leave its entry as it was. *)
Lemma scan_miss (lines : list string) (key : string) :
  Forall (fun line => forall logEntry, record line <> Some (key, logEntry))
    lines ->
  forall m : gmap string (option entry),
    foldl scanLine m lines !! key = m !! key.
Proof.
  induction 1 as [|line lines Hline _ IH]; intros m; simpl; [done |].
  rewrite IH, scanLine_record.
  destruct (record line) as [[msg logEntry]|] eqn:E; [| done].
  case_decide; [| done].
  rewrite lookup_insert_ne; [done |]. intros ->. by eapply Hline.
Qed.

(** The last record for [key] is the entry stored for it. *)
Lemma scan_hit (pre post : list string) (line key : string)
    (logEntry : entry) (m : gmap string (option entry)) :
  is_Some (m !! key) ->
  record line = Some (key, logEntry) ->
  Forall (fun line => forall logEntry, record line <> Some (key, logEntry))
    post ->
  foldl scanLine m (pre ++ line :: post) !! key = Some (Some logEntry).
Proof.
  intros Hm Hline Hpost.
  rewrite foldl_app. simpl. rewrite scan_miss by done.
  rewrite scanLine_record, Hline.
  rewrite decide_True by (by apply scan_keys).
  by rewrite lookup_insert_eq.
Qed.

Lemma messageTypes0_keys (key : string) :
  is_Some (messageTypes0 !! key) <-> key ∈ watched.
Proof.
  unfold messageTypes0, watched.
  rewrite <- insert_empty.
  rewrite !lookup_insert_is_Some, lookup_empty, !elem_of_cons, elem_of_nil.
  split.
  - intros [<-|[_ [<-|[_ [<-|[_ []%is_Some_None]]]]]]; auto.
  - intros [->|[->|[->|[]]]].
    + by left.
    + right. split; [done |]. by left.
    + right. split; [done |]. right. split; [done |]. by left.
Qed.

Lemma latest_Some (logs key : string) (logEntry : entry) :
  latest logs key = Some logEntry
  <-> scanLines logs !! key = Some (Some logEntry).
Proof.
  unfold latest. destruct (scanLines logs !! key) as [[e|]|]; simpl;
    split; intros H; by simplify_eq.
Qed.

(** Only watched keys have a stored entry. *)
Lemma latest_watched (logs key : string) :
  is_Some (latest logs key) -> key ∈ watched.
Proof.
  intros [e He%latest_Some]. apply messageTypes0_keys.
  unfold scanLines in He. eapply scan_keys. by rewrite He.
Qed.

(** ** The log extractor: the second loop *)

Lemma concat_cons (x : string) (l : list string) :
  String.concat "" (x :: l) = x +:+ String.concat "" l.
Proof.
  destruct l; simpl; [by rewrite app_empty_r | by rewrite app_empty_l].
Qed.

Lemma logLines_cons (msg : string) (fields : list (string * value))
    (ls : list (string * list (string * value))) :
  logLines ((msg, fields) :: ls) = logLine msg fields +:+ logLines ls.
Proof. unfold logLines. rewrite fmap_cons. apply concat_cons. Qed.

Lemma logLines_app (ls1 ls2 : list (string * list (string * value))) :
  logLines (ls1 ++ ls2) = logLines ls1 +:+ logLines ls2.
Proof.
  induction ls1 as [|[msg fields] ls1 IH]; [done |].
  rewrite <- app_comm_cons, !logLines_cons, IH. by rewrite app_assoc_s.
Qed.

(** The inner loop appends what it writes for each field. *)
Lemma foldl_writeField (fields : list (string * value)) :
  forall r : string,
    foldl (fun r kv => r +:+ writeField kv) r fields
    = r +:+ String.concat "" (writeField <$> fields).
Proof.
  induction fields as [|kv fields IH]; intros r.
  - simpl. by rewrite app_empty_r.
  - rewrite fmap_cons, concat_cons. simpl. rewrite IH. by rewrite app_assoc_s.
Qed.

Lemma bind_singleton {A B : Type} (f : A -> B) (l : list A) :
  (x ← l; [f x]) = f <$> l.
Proof. induction l as [|x l IH]; [done |]. simpl. by f_equal. Qed.

(** One pass of the second loop appends a line, or nothing for a nil
    entry. *)
Lemma writeEntry_line (result msg : string) (logEntry : entry) :
  writeEntry result (msg, Some logEntry)
  = (fun fields => result +:+ logLine msg fields) <$> range (strip logEntry).
Proof.
  unfold writeEntry. rewrite bind_singleton.
  apply list_fmap_ext. intros _ fields _.
  rewrite foldl_writeField. unfold logLine.
  by rewrite !app_assoc_s.
Qed.

Lemma foldM_writeEntry (order : list (string * option entry)) :
  forall result out : string,
    out ∈ foldM writeEntry result order
    <-> exists ls, picks order ls /\ out = result +:+ logLines ls.
Proof.
  induction order as [|[msg [logEntry|]] order IH]; intros result out.
  - simpl. rewrite list_elem_of_singleton. split.
    + intros ->. exists []. split; [constructor |].
      by rewrite app_empty_r.
    + intros (ls & Hp & ->). inversion Hp; subst. by rewrite app_empty_r.
  - change (foldM writeEntry result ((msg, Some logEntry) :: order))
      with (a' ← writeEntry result (msg, Some logEntry);
            foldM writeEntry a' order).
    rewrite list_elem_of_bind. setoid_rewrite writeEntry_line.
    setoid_rewrite list_elem_of_fmap. split.
    + intros (r' & Hout & fields & -> & Hf).
      apply IH in Hout as (ls & Hp & ->).
      exists ((msg, fields) :: ls). split.
      * constructor; [| done]. symmetry. by apply permutations_Permutation.
      * by rewrite logLines_cons, app_assoc_s.
    + intros (ls & Hp & ->). inversion Hp as [| |? ? fields ? ls' Hf Hp']; subst.
      exists (result +:+ logLine msg fields). split.
      * apply IH. exists ls'. split; [done |].
        by rewrite logLines_cons, app_assoc_s.
      * exists fields. split; [done |].
        apply permutations_Permutation. by symmetry.
  - change (foldM writeEntry result ((msg, None) :: order))
      with (a' ← [result]; foldM writeEntry a' order).
    rewrite list_elem_of_bind. setoid_rewrite list_elem_of_singleton. split.
    + intros (r' & Hout & ->). apply IH in Hout as (ls & Hp & ->).
      exists ls. split; [by constructor | done].
    + intros (ls & Hp & ->). inversion Hp; subst.
      exists result. split; [| done]. apply IH. by exists ls.
Qed.

(** What a run emits, against the order in which it visits the keys. *)
Lemma picks_sublist order ls : picks order ls -> ls.*1 `sublist_of` order.*1.
Proof.
  induction 1; simpl.
  - constructor.
  - by apply sublist_cons.
  - by apply sublist_skip.
Qed.

Lemma picks_key order ls (key : string) :
  picks order ls ->
  key ∈ ls.*1 <-> exists logEntry, (key, Some logEntry) ∈ order.
Proof.
  induction 1 as [|msg order ls Hp IH|msg logEntry fields order ls Hf Hp IH];
    simpl.
  - rewrite elem_of_nil. split; [done |]. intros [? H]. by inversion H.
  - rewrite IH. split; intros [e He]; exists e.
    + by right.
    + inversion He; by subst.
  - rewrite elem_of_cons, IH. split.
    + intros [->|[e He]]; [exists logEntry; by left | exists e; by right].
    + intros [e He]. inversion He; subst; [by left | right; by exists e].
Qed.

Lemma picks_fields order ls (key : string) fields :
  picks order ls ->
  (key, fields) ∈ ls ->
  exists logEntry,
    (key, Some logEntry) ∈ order /\ fields ≡ₚ map_to_list (strip logEntry).
Proof.
  induction 1 as [|msg order ls Hp IH|msg logEntry fs order ls Hf Hp IH];
    intros Hin.
  - by inversion Hin.
  - destruct (IH Hin) as (e & He & Hfs). exists e. split; [by right | done].
  - inversion Hin; subst.
    + exists logEntry. split; [by left | done].
    + destruct IH as (e & He & Hfs); [done |].
      exists e. split; [by right | done].
Qed.

(** Every result of the extractor is the text of an emission: one line
    for each key with a stored entry. *)
Lemma extractLogMessages_emission (logs out : string) :
  out ∈ extractLogMessages logs ->
  exists ls, emission logs ls /\ out = logLines ls.
Proof.
  unfold extractLogMessages, range. rewrite list_elem_of_bind.
  intros (order & Hout & Horder%permutations_Permutation).
  apply foldM_writeEntry in Hout as (ls & Hp & ->).
  exists ls. split; [| done].
  assert (Hmem : forall key e,
             (key, Some e) ∈ order <-> latest logs key = Some e).
  { intros key e. rewrite <- Horder, elem_of_map_to_list. symmetry.
    apply latest_Some. }
  split; [| split].
  - apply (sublist_NoDup ls.*1 order.*1); [| by apply picks_sublist].
    rewrite <- Horder. apply NoDup_fst_map_to_list.
  - intros key. rewrite (picks_key order ls key Hp).
    unfold is_Some. by setoid_rewrite Hmem.
  - intros key fields Hin.
    destruct (picks_fields _ _ _ _ Hp Hin) as (e & He & Hf).
    exists e. split; [by apply Hmem | done].
Qed.

(** And the text of every emission is a result of the extractor. *)
Lemma emission_extractLogMessages (logs : string)
    (ls : list (string * list (string * value))) :
  emission logs ls -> logLines ls ∈ extractLogMessages logs.
Proof.
  intros (Hnd & Hkeys & Hf).
  set (store := scanLines logs).
  set (lines := (fun l : string * list (string * value) =>
                   (l.1, latest logs l.1)) <$> ls).
  set (nils := filter (fun kv : string * option entry => kv.2 = None)
                 (map_to_list store)).
  assert (Hnils : picks nils []).
  { assert (H : Forall (fun kv : string * option entry => kv.2 = None) nils).
    { apply Forall_forall. by intros kv [H _]%list_elem_of_filter. }
    induction H as [|[k [e|]] l Hk _ IH]; simplify_eq/=; by constructor. }
  assert (Hpicks : picks (lines ++ nils) ls).
  { subst lines. clear Hnd Hkeys.
    induction ls as [|[k fields] ls IH]; [done |].
    destruct (Hf k fields) as (e & He & Hfields); [by left |].
    rewrite fmap_cons. simpl. rewrite He. constructor; [done |].
    apply IH. intros k' f' Hin. apply Hf. by right. }
  unfold extractLogMessages, range. apply list_elem_of_bind.
  exists (lines ++ nils). split.
  - apply foldM_writeEntry. by exists ls.
  - apply permutations_Permutation. fold store.
    apply NoDup_Permutation.
    + apply NoDup_map_to_list.
    + apply NoDup_app. split; [| split].
      * apply (NoDup_fmap_1 fst). subst lines.
        rewrite <- list_fmap_compose. exact Hnd.
      * intros [k v] Hin1 [Hv _]%list_elem_of_filter. simpl in Hv. subst v.
        subst lines. apply list_elem_of_fmap in Hin1 as ([k' f'] & [= -> Hl] & Hin).
        destruct (Hf _ _ Hin) as (e & He & _). simpl in Hl. congruence.
      * apply NoDup_filter, NoDup_map_to_list.
    + intros [k v]. rewrite elem_of_map_to_list, elem_of_app. split.
      * intros Hkv. destruct v as [e|].
        -- left. assert (Hl : latest logs k = Some e) by by apply latest_Some.
           assert (Hin : k ∈ ls.*1) by (apply Hkeys; by rewrite Hl).
           apply list_elem_of_fmap in Hin as ([k' f'] & -> & Hin).
           subst lines. apply list_elem_of_fmap. exists (k', f').
           simpl in *. by rewrite Hl.
        -- right. apply list_elem_of_filter. split; [done |].
           by apply elem_of_map_to_list.
      * intros [Hin|[_ Hin%elem_of_map_to_list]%list_elem_of_filter]; [| done].
        subst lines. apply list_elem_of_fmap in Hin as ([k' f'] & [= -> ->] & Hin).
        destruct (Hf _ _ Hin) as (e & He & _). simpl.
        rewrite He. by apply latest_Some.
Qed.

(** The results of the extractor are exactly the texts of its
    emissions. *)
Lemma extractLogMessages_spec (logs out : string) :
  out ∈ extractLogMessages logs
  <-> exists ls, emission logs ls /\ out = logLines ls.
Proof.
  split; [apply extractLogMessages_emission |].
  intros (ls & Hem & ->). by apply emission_extractLogMessages.
Qed.

(** The extractor always returns. *)
Lemma extractLogMessages_returns (logs : string) :
  exists out, out ∈ extractLogMessages logs.
Proof.
  unfold extractLogMessages.
  assert (Hf : forall order result,
             exists out, out ∈ foldM writeEntry result order).
  { induction order as [|[msg [e|]] order IH]; intros result.
    - exists result. simpl. by left.
    - destruct (IH (result +:+ logLine msg (map_to_list (strip e))))
        as [out Hout].
      exists out. cbn [foldM]. apply list_elem_of_bind. eexists.
      split; [done |].
      rewrite writeEntry_line. apply list_elem_of_fmap. eexists.
      split; [done |]. apply permutations_refl.
    - destruct (IH result) as [out Hout]. exists out. cbn [foldM].
      apply list_elem_of_bind. exists result. split; [done | by left]. }
  destruct (Hf (map_to_list (scanLines logs)) "") as [out Hout].
  exists out. apply list_elem_of_bind. eexists. split; [done |].
  apply permutations_refl.
Qed.

(** ** The log extractor: the claims *)

(** Membership in a list that has been computed. *)
Ltac find_elem := first [left | right; find_elem].

Lemma messageTypes0_nil (key : string) : mjoin (messageTypes0 !! key) = None.
Proof.
  unfold messageTypes0. rewrite <- insert_empty.
  repeat (rewrite lookup_insert; case_decide; [done |]).
  by rewrite lookup_empty.
Qed.

Lemma noise_record (line : string) : noise line = true -> record line = None.
Proof.
  unfold noise, record, Json.Unmarshal.
  destruct (Json.parse line) as [[v err]|]; [| done].
  destruct v as [| | | | |m]; try done.
  destruct err; [done |].
  destruct (m !! "msg") as [[]|]; done.
Qed.

Lemma scanLine_skip (m : gmap string (option entry)) (line : string) :
  record line = None -> scanLine m line = m.
Proof. intros H. by rewrite scanLine_record, H. Qed.

(** Dropping lines that are no record does not change the first loop. *)
Lemma scan_filter (keep : string -> bool) (lines : list string) :
  (forall line, keep line = false -> record line = None) ->
  forall m : gmap string (option entry),
    foldl scanLine m (filter (fun line => keep line = true) lines)
    = foldl scanLine m lines.
Proof.
  intros Hkeep. induction lines as [|line lines IH]; intros m; [done |].
  rewrite filter_cons. simpl. case_decide as Hk.
  - simpl. apply IH.
  - rewrite scanLine_skip; [apply IH |].
    apply Hkeep. by destruct (keep line).
Qed.

(** C1. On the sample made of the "peers in store" line with level, ts,
    caller and count 12 followed by the "peers in store" line with count
    15, the extractor returns exactly the one line
    [{ msg: peers in store; count: 15 }]: the earlier line and the
    level, ts and caller fields are gone, the count has no decimal
    places, and there is no line for the other two watched keys.  The
    same holds without the final line feed. *)
Theorem end_to_end_scenario (out : string) :
  (out ∈ extractLogMessages (line_peers_12 +:+ nl +:+ line_peers_15 +:+ nl)
   <-> out = "{ msg: peers in store; count: 15 }" +:+ nl)
  /\ (out ∈ extractLogMessages (line_peers_12 +:+ nl +:+ line_peers_15)
      <-> out = "{ msg: peers in store; count: 15 }" +:+ nl).
Proof.
  assert (H1 : extractLogMessages
                 (line_peers_12 +:+ nl +:+ line_peers_15 +:+ nl)
               = replicate 6 ("{ msg: peers in store; count: 15 }" +:+ nl))
    by (vm_compute; reflexivity).
  assert (H2 : extractLogMessages (line_peers_12 +:+ nl +:+ line_peers_15)
               = replicate 6 ("{ msg: peers in store; count: 15 }" +:+ nl))
    by (vm_compute; reflexivity).
  rewrite H1, H2. simpl replicate.
  rewrite !elem_of_cons, elem_of_nil. tauto.
Qed.

(** ** The code's text and the specification's *)

(** What the second loop deletes is what the specification strips. *)
Lemma strip_shown (logEntry : entry) : strip logEntry = shown logEntry.
Proof.
  apply map_eq. intros k. apply option_eq. intros v.
  unfold shown, strip, deleted.
  rewrite map_lookup_filter_Some, !lookup_delete_Some. simpl.
  rewrite !not_elem_of_cons. pose proof (not_elem_of_nil k).
  split; intros; destruct_and!; repeat split; congruence.
Qed.

Lemma shown_not_deleted (logEntry : entry) (k : string) (v : value) :
  shown logEntry !! k = Some v -> k ∉ deleted.
Proof. unfold shown. by intros [_ H]%map_lookup_filter_Some. Qed.

Lemma writeField_fieldText (kv : string * value) :
  kv.1 <> "msg" -> writeField kv = fieldText kv.
Proof.
  destruct kv as [k v]. simpl. intros Hk. unfold writeField, fieldText.
  rewrite decide_True by done. by destruct v.
Qed.

(** The fields that the inner loop visits are none of the deleted
    ones. *)
Lemma emission_fields (logs : string)
    (ls : list (string * list (string * value))) (key k : string)
    (fields : list (string * value)) :
  emission logs ls -> (key, fields) ∈ ls -> k ∈ fields.*1 -> k ∉ deleted.
Proof.
  intros (_ & _ & Hf) Hin Hk.
  destruct (Hf _ _ Hin) as (logEntry & _ & Hperm).
  rewrite Hperm, strip_shown in Hk.
  apply list_elem_of_fmap in Hk as ([k' v] & -> & Hkv).
  apply elem_of_map_to_list in Hkv. by eapply shown_not_deleted.
Qed.

Lemma msg_deleted : "msg" ∈ deleted.
Proof. unfold deleted. find_elem. Qed.

(** On what the loops emit, the code writes the text that the
    specification describes. *)
Lemma emission_linesText (logs : string)
    (ls : list (string * list (string * value))) :
  emission logs ls -> logLines ls = linesText ls.
Proof.
  intros Hem. unfold logLines, linesText. f_equal.
  apply list_fmap_ext. intros i [key fields] Hi. simpl.
  unfold logLine, lineText. do 4 f_equal. apply list_fmap_ext. intros j [k v] Hj.
  apply writeField_fieldText. simpl. intros ->.
  apply (emission_fields logs ls key "msg" fields Hem).
  - by eapply list_elem_of_lookup_2.
  - apply list_elem_of_fmap. exists ("msg", v). split; [done |].
    by eapply list_elem_of_lookup_2.
  - apply msg_deleted.
Qed.





(** The later of two records for a key is skipped when its number is
    out of range: the earlier one stays. *)
Example range_error_line_skipped :
  extractLogMessages
    (line_peers_15 +:+ nl
     +:+ dq "{'msg':'peers in store','count':1e999}")
  = extractLogMessages line_peers_15.
Proof. vm_compute. reflexivity. Qed.

(** C8, as the code has it.  A key for which no line of the sample is a
    record has no stored entry, whatever an earlier call stored; the
    extractor has a result; and the loop emits no line for the key:
    each result is the text of the lines emitted for the keys that do
    have a record in this sample.  This is said of the lines that the
    loop emits, not of the lines of the text: a string field that holds
    a line feed is written as it is, so the text of another key's line
    can read as a line for this key. *)
Theorem absent_key_omitted (logs key : string) :
  Forall (fun line => forall e, record line <> Some (key, e))
    (Strings.Split logs LF) ->
  latest logs key = None
  /\ (exists out, out ∈ extractLogMessages logs)
  /\ forall out, out ∈ extractLogMessages logs ->
       exists ls,
         emission logs ls /\ out = logLines ls /\ out = linesText ls
         /\ key ∉ ls.*1.
Proof.
  intros Hmiss.
  assert (Hlatest : latest logs key = None).
  { unfold latest, scanLines. rewrite scan_miss by done.
    apply messageTypes0_nil. }
  split; [done |]. split; [apply extractLogMessages_returns |].
  intros out Hout.
  apply extractLogMessages_emission in Hout as (ls & Hem & ->).
  exists ls. split; [done |]. split; [done |].
  split; [by apply (emission_linesText logs) |].
  destruct Hem as (_ & Hkeys & _). rewrite Hkeys, Hlatest.
  by intros [? ?].
Qed.

Lemma absent_key_omitted_witness :
  Forall (fun line => forall e, record line <> Some ("peers in store", e))
    (Strings.Split (line_bootstrap +:+ nl) LF)
  /\ latest (line_bootstrap +:+ nl) "peers in store" = None
  /\ ("{ msg: connecting to bootstrap }" +:+ nl)
     ∈ extractLogMessages (line_bootstrap +:+ nl)
  /\ forall out, out ∈ extractLogMessages (line_bootstrap +:+ nl) ->
       exists ls,
         out = linesText ls /\ "peers in store" ∉ ls.*1.
Proof.
  assert (H : Forall
                (fun line => forall e, record line <> Some ("peers in store", e))
                (Strings.Split (line_bootstrap +:+ nl) LF)).
  { vm_compute Strings.Split. repeat constructor; intros e; vm_compute; done. }
  assert (Hout : ("{ msg: connecting to bootstrap }" +:+ nl)
                 ∈ extractLogMessages (line_bootstrap +:+ nl))
    by (vm_compute; find_elem).
  destruct (absent_key_omitted (line_bootstrap +:+ nl) "peers in store" H)
    as (Hlatest & _ & Hall).
  split; [exact H |]. split; [exact Hlatest |]. split; [exact Hout |].
  intros out Ho. destruct (Hall out Ho) as (ls & _ & _ & H1 & H2).
  exists ls. split; [exact H1 | exact H2].
Defined.

(** C8, as the specification has it: that the output has no line for a
    key without a record in the sample.  The sample is one line, a
    record for "peers in store" whose field [x] holds a line feed; no
    line of it is a record for "connecting to bootstrap", yet the second
    line of the returned text is [{ msg: connecting to bootstrap }]. *)
Lemma no_line_in_text_counterexample :
  ~ (forall logs key out,
       key ∈ watched ->
       Forall (fun line => forall e, record line <> Some (key, e))
         (Strings.Split logs LF) ->
       out ∈ extractLogMessages logs ->
       forall l, l ∈ Strings.Split out LF -> ~ line_for key l).
Proof.
  intros H.
  assert (Hkey : "connecting to bootstrap" ∈ watched)
    by (unfold watched; find_elem).
  assert (Hmiss : Forall (fun line => forall e,
                            record line
                            <> Some ("connecting to bootstrap", e))
                    (Strings.Split line_feed_in_field LF)).
  { vm_compute Strings.Split. repeat constructor; intros e; vm_compute; done. }
  assert (Hout : ("{ msg: peers in store; x: y }" +:+ nl
                  +:+ "{ msg: connecting to bootstrap }" +:+ nl)
                 ∈ extractLogMessages line_feed_in_field)
    by (vm_compute; find_elem).
  apply (H _ _ _ Hkey Hmiss Hout "{ msg: connecting to bootstrap }").
  - vm_compute. find_elem.
  - exists []. vm_compute. reflexivity.
Qed.

(** The same text is a result on a sample that does have a record for
    the key. *)
Example same_text_with_record :
  ("{ msg: peers in store; x: y }" +:+ nl
   +:+ "{ msg: connecting to bootstrap }" +:+ nl)
  ∈ extractLogMessages two_records.
Proof. vm_compute. find_elem. Qed.

(** The first loop on a sample and on the sample without its noise
    lines. *)
Lemma scanLines_without_noise (logs : string) :
  scanLines
    (Strings.Join
       (filter (fun line => negb (noise line) = true) (Strings.Split logs LF))
       nl)
  = scanLines logs.
Proof.
  set (kept := filter (fun line => negb (noise line) = true)
                 (Strings.Split logs LF)).
  assert (Hscan : foldl scanLine messageTypes0 kept = scanLines logs).
  { apply scan_filter. intros line H. apply noise_record.
    by destruct (noise line). }
  unfold scanLines at 1.
  destruct kept as [|l kept'] eqn:E.
  - simpl in *. rewrite <- Hscan. by rewrite scanLine_skip by done.
  - rewrite <- E in *. unfold nl. rewrite Split_Join.
    + by rewrite Hscan.
    + by rewrite E.
    + subst kept. apply Forall_forall.
      intros line [_ Hline]%list_elem_of_filter.
      revert line Hline. apply Forall_forall, Split_pieces.
Qed.

(** C7. A line that is not valid JSON, or is a JSON record without a
    string "msg", is skipped: the extractor returns, and on the sample
    and on the sample without those lines it stores the same entry for
    every key and has the same results. *)
Theorem noise_lines_skipped (logs : string) :
  let kept :=
    Strings.Join
      (filter (fun line => negb (noise line) = true) (Strings.Split logs LF))
      nl in
  extractLogMessages logs = extractLogMessages kept
  /\ (forall key, latest logs key = latest kept key)
  /\ exists out, out ∈ extractLogMessages logs.
Proof.
  intros kept. split; [| split].
  - unfold extractLogMessages, kept. by rewrite scanLines_without_noise.
  - intros key. unfold latest, kept. by rewrite scanLines_without_noise.
  - apply extractLogMessages_returns.
Qed.

Example sample_with_noise :
  extractLogMessages
    (line_peers_12 +:+ nl +:+ "-- Logs begin --" +:+ nl +:+ line_peers_15
     +:+ nl +:+ dq "{'level':'info','count':3}" +:+ nl)
  = extractLogMessages (line_peers_12 +:+ nl +:+ line_peers_15).
Proof. vm_compute. reflexivity. Qed.

(** C4, as the code has it.  The entries stored for the keys are a
    function of the sample, and any two results of the extractor on the
    same sample are the texts of the same lines, one per key with a
    stored entry and with the same fields; the order of the lines and
    the order of the fields in a line may differ between them. *)
Theorem results_agree_up_to_order (logs out1 out2 : string) :
  out1 ∈ extractLogMessages logs ->
  out2 ∈ extractLogMessages logs ->
  exists ls1 ls2,
    out1 = logLines ls1 /\ out2 = logLines ls2
    /\ emission logs ls1 /\ emission logs ls2
    /\ ls1.*1 ≡ₚ ls2.*1
    /\ forall key fields1 fields2,
         (key, fields1) ∈ ls1 -> (key, fields2) ∈ ls2 -> fields1 ≡ₚ fields2.
Proof.
  intros (ls1 & Hem1 & ->)%extractLogMessages_emission
         (ls2 & Hem2 & ->)%extractLogMessages_emission.
  exists ls1, ls2. do 4 (split; [done |]).
  destruct Hem1 as (Hnd1 & Hk1 & Hf1), Hem2 as (Hnd2 & Hk2 & Hf2). split.
  - apply NoDup_Permutation; [done | done |].
    intros key. by rewrite Hk1, Hk2.
  - intros key fields1 fields2 H1 H2.
    destruct (Hf1 _ _ H1) as (e1 & He1 & Hp1).
    destruct (Hf2 _ _ H2) as (e2 & He2 & Hp2).
    rewrite He1 in He2. simplify_eq. by rewrite Hp1, Hp2.
Qed.

Lemma results_agree_up_to_order_witness :
  bootstrap_first ∈ extractLogMessages two_keys
  /\ peers_first ∈ extractLogMessages two_keys
  /\ exists ls1 ls2,
       bootstrap_first = logLines ls1 /\ peers_first = logLines ls2
       /\ ls1.*1 ≡ₚ ls2.*1.
Proof.
  assert (H1 : bootstrap_first ∈ extractLogMessages two_keys).
  { vm_compute. find_elem. }
  assert (H2 : peers_first ∈ extractLogMessages two_keys).
  { vm_compute. find_elem. }
  split; [done |]. split; [done |].
  destruct (results_agree_up_to_order two_keys bootstrap_first peers_first
              H1 H2)
    as (ls1 & ls2 & E1 & E2 & _ & _ & Hp & _).
  by exists ls1, ls2.
Defined.

(** C4, as stated, fails: on a sample with records for two watched keys
    the extractor can return the two lines in either order, so two runs
    on the same sample need not return the same text. *)
Lemma order_not_fixed_counterexample :
  ~ (forall out1 out2,
       out1 ∈ extractLogMessages two_keys ->
       out2 ∈ extractLogMessages two_keys -> out1 = out2).
Proof.
  intros H.
  assert (H1 : bootstrap_first ∈ extractLogMessages two_keys).
  { vm_compute. find_elem. }
  assert (H2 : peers_first ∈ extractLogMessages two_keys).
  { vm_compute. find_elem. }
  specialize (H _ _ H1 H2). vm_compute in H. discriminate H.
Qed.

(** The same within one line: the fields of an entry come out in either
    order. *)
Example field_order_not_fixed :
  let logs := dq "{'msg':'peers in store','a':1,'b':2}" in
  ("{ msg: peers in store; a: 1; b: 2 }" +:+ nl) ∈ extractLogMessages logs
  /\ ("{ msg: peers in store; b: 2; a: 1 }" +:+ nl) ∈ extractLogMessages logs.
Proof. vm_compute. split; find_elem. Qed.

(** ** The per-node fetch and the poll loop *)

Lemma cmd_first_bytes (a b : ascii) (s t : string) :
  String a (String b s) = t ->
  exists s', t = String a (String b s').
Proof. intros <-. by eexists. Qed.

Lemma TmuxLogReader_cmd_other (t : TmuxLogReader) :
  TmuxLogReader_cmd t
  ∉ statsCommands ++ [ServiceLogReader_cmd ceremonyclient].
Proof.
  unfold TmuxLogReader_cmd, statsCommands. rewrite !app_cons.
  intros H. simpl in H.
  repeat (apply elem_of_cons in H as [H|H];
          [apply cmd_first_bytes in H as [? H]; vm_compute in H;
           discriminate H |]).
  by apply elem_of_nil in H.
Qed.

(** The commands of a fetch with the service reader, whatever the remote
    end answers: the three stats commands and the journal command, in
    that order, or the first of them when a step fails; all of them
    when the fetch returns without error. *)
Lemma getNodeStatus_commands (ssh_Dial : Dialer) (node : Node) :
  let r := getNodeStatus ssh_Dial node ceremonyclient in
  r.1 `prefix_of` statsCommands ++ [ServiceLogReader_cmd ceremonyclient]
  /\ (forall output, r.2 = Success output ->
        r.1 = statsCommands ++ [ServiceLogReader_cmd ceremonyclient]).
Proof.
  unfold getNodeStatus, statsCommands, runStats, ReadLogs,
    ServiceLogReader_ReadLogs, run, wrap, bind, in_context, ret.
  repeat (case_match; simplify_eq/=);
    (split; [by eexists | intros; by simplify_eq]).
Qed.

(** C10. Whatever the configuration and whatever the node answers, the
    goroutine of a node reads the logs with the service reader of the
    service "ceremonyclient": the commands it runs are the three stats
    commands followed by the journalctl command on the last 50 lines of
    ceremonyclient.service, filtered to the three watched keys (or the
    first of these, when a step fails), and the command of the tmux
    reader is never among them, for any pane. *)
Theorem service_reader_used (ssh_Dial : Dialer) (config : Config)
    (i : nat) (node : Node) (t : TmuxLogReader) :
  Nodes config !! i = Some node ->
  (nodeTask ssh_Dial i node).1
    `prefix_of` statsCommands ++ [ServiceLogReader_cmd ceremonyclient]
  /\ (forall output,
        (getNodeStatus ssh_Dial node ceremonyclient).2
        = Success output ->
        (nodeTask ssh_Dial i node).1
        = statsCommands ++ [ServiceLogReader_cmd ceremonyclient])
  /\ ServiceLogReader_cmd ceremonyclient
     = "journalctl -u ceremonyclient.service -n 50 --no-hostname -o cat | "
       +:+ "grep -E '" +:+ dq "'msg':'"
       +:+ "(connecting to bootstrap|broadcasting self-test info|"
       +:+ "peers in store)" +:+ dq "'" +:+ "'"
  /\ TmuxLogReader_cmd t ∉ (nodeTask ssh_Dial i node).1.
Proof.
  intros _.
  destruct (getNodeStatus_commands ssh_Dial node) as [Hpre Hall].
  unfold nodeTask. fold ceremonyclient.
  destruct (getNodeStatus ssh_Dial node ceremonyclient)
    as [cmds r] eqn:E.
  simpl in *. split; [done |]. split; [done |]. split.
  - vm_compute. reflexivity.
  - intros Hin. apply (TmuxLogReader_cmd_other t).
    destruct Hpre as [k Hk]. unfold statsCommands. simpl. rewrite Hk.
    apply elem_of_app. by left.
Qed.

Lemma service_reader_used_witness :
  Nodes {| Nodes := [node1; node2] |} !! 1%nat = Some node2
  /\ (nodeTask healthy 1 node2).1
     = statsCommands ++ [ServiceLogReader_cmd ceremonyclient]
  /\ TmuxLogReader_cmd {| PaneName := "q" |} ∉ (nodeTask healthy 1 node2).1.
Proof.
  destruct (service_reader_used healthy {| Nodes := [node1; node2] |} 1
              node2 {| PaneName := "q" |} eq_refl) as (_ & Hall & _ & Htmux).
  split; [reflexivity |]. split; [| exact Htmux].
  eapply Hall. vm_compute. reflexivity.
Defined.

Example healthy_node_commands :
  (nodeTask healthy 0 node1).1
  = ["top -b -n 1 | grep 'Cpu(s)'"; "free -m"; "df -h /";
     ServiceLogReader_cmd ceremonyclient].
Proof. vm_compute. reflexivity. Qed.

(** What one goroutine writes: its text twice in its own slot, nothing
    in the others. *)
Lemma written_task (i j : nat) (text : string) :
  written i [SetText j text; QueueUpdateDraw [SetText j text]]
  = if decide (j = i) then [text; text] else [].
Proof.
  unfold written. simpl. rewrite !filter_cons, filter_nil. simpl.
  by case_decide.
Qed.

Lemma written_cons (i : nat) (c : call) (calls : list call) :
  written i (c :: calls) = written i [c] ++ written i calls.
Proof.
  unfold written. simpl. rewrite app_nil_r.
  by rewrite filter_app, fmap_app.
Qed.

(** In an interleaving, a slot that only one goroutine writes holds what
    that goroutine wrote, in its order. *)
Lemma interleaving_written (i : nat) (tasks : list (list call))
    (calls : list call) :
  interleaving tasks calls ->
  (forall j t, tasks !! j = Some t -> j <> i -> written i t = []) ->
  written i calls = written i (default [] (tasks !! i)).
Proof.
  induction 1 as [tasks Hall|tasks j x t tr Hj Hil IH]; intros Hother.
  - destruct (tasks !! i) as [t|] eqn:E; [| done]. simpl.
    rewrite Forall_forall in Hall.
    rewrite (Hall t); [done |]. by eapply list_elem_of_lookup_2.
  - rewrite written_cons. destruct (decide (j = i)) as [->|Hne].
    + rewrite Hj. simpl. rewrite (written_cons i x t). f_equal.
      rewrite IH.
      * rewrite list_lookup_insert_eq; [done |]. by eapply lookup_lt_Some.
      * intros j' t' Hj' Hne'. rewrite list_lookup_insert_ne in Hj' by done.
        by eapply Hother.
    + pose proof (Hother j _ Hj Hne) as Hx.
      rewrite written_cons in Hx. apply app_eq_nil in Hx as [Hx Ht].
      rewrite Hx. simpl. rewrite IH.
      * by rewrite list_lookup_insert_ne.
      * intros j' t' Hj' Hne'. destruct (decide (j = j')) as [<-|Hjj].
        -- rewrite list_lookup_insert_eq in Hj' by (by eapply lookup_lt_Some).
           by simplify_eq.
        -- rewrite list_lookup_insert_ne in Hj' by done. by eapply Hother.
Qed.

(** The calls of one goroutine, from the result of its fetch. *)
Lemma nodeTask_calls (ssh_Dial : Dialer) (j : nat) (node : Node)
    (alts : list (list call)) (t : list call) :
  (nodeTask ssh_Dial j node).2 = Some alts ->
  t ∈ alts ->
  exists text,
    t = [SetText j text; QueueUpdateDraw [SetText j text]]
    /\ match (getNodeStatus ssh_Dial node
                ceremonyclient).2 with
       | Failure err =>
           text = "Error fetching status for node " +:+ IP node +:+ ": "
                  +:+ err
       | Success (Some outputs) => text ∈ outputs
       | Success None => False
       end.
Proof.
  unfold nodeTask. fold ceremonyclient.
  destruct (getNodeStatus ssh_Dial node ceremonyclient)
    as [cmds [[outputs|]|err]]; simpl; intros Halts Ht; simplify_eq.
  - apply list_elem_of_fmap in Ht as (text & -> & Htext). by exists text.
  - apply list_elem_of_singleton in Ht as ->. by eexists.
Qed.


(** The next call comes from goroutine [n]. *)
Ltac il_step n :=
  eapply (interleaving_step _ n); [reflexivity | cbn [insert list_insert]].

Lemma pollCycle_two_nodes :
  pollCycle one_down two_nodes
    [SetText 0 report1; SetText 1 error2; QueueUpdateDraw [SetText 1 error2];
     QueueUpdateDraw [SetText 0 report1]].
Proof.
  exists [[SetText 0 report1; QueueUpdateDraw [SetText 0 report1]];
          [SetText 1 error2; QueueUpdateDraw [SetText 1 error2]]].
  split.
  - constructor; [| constructor; [| constructor]]; eexists;
      (split; [vm_compute; reflexivity | vm_compute; find_elem]).
  - il_step 0%nat.
    il_step 1%nat.
    il_step 1%nat.
    il_step 0%nat.
    apply interleaving_done. by repeat constructor.
Qed.



(** ** The scenario of C1 among other lines, and the empty output *)

(** An emission whose only key is [key] is one line. *)
Lemma emission_single (logs key : string)
    (ls : list (string * list (string * value))) :
  emission logs ls ->
  (forall k, is_Some (latest logs k) <-> k = key) ->
  exists fields, ls = [(key, fields)].
Proof.
  intros (Hnd & Hkeys & _) Honly.
  assert (Hp : ls.*1 ≡ₚ [key]).
  { apply NoDup_Permutation; [done | apply NoDup_singleton |].
    intros k. rewrite Hkeys, Honly. by rewrite list_elem_of_singleton. }
  apply Permutation_singleton_r in Hp.
  destruct ls as [|[k fields] [|? ?]]; simplify_eq/=. by exists fields.
Qed.

Lemma record_key_inj (line k1 k2 : string) (e1 e2 : entry) :
  record line = Some (k1, e1) -> record line = Some (k2, e2) -> k1 = k2.
Proof. intros H1 H2. rewrite H1 in H2. by injection H2. Qed.

Lemma record_peers_15 :
  record line_peers_15 = Some ("peers in store", entry_peers_15).
Proof. vm_compute. reflexivity. Qed.

Lemma record_peers_12 :
  exists e, record line_peers_12 = Some ("peers in store", e).
Proof. eexists. vm_compute. reflexivity. Qed.

Lemma fields_peers_15 :
  map_to_list (strip entry_peers_15)
  = [("count", VFloat64 (S754_finite false 8444249301319680 (-49)))].
Proof. vm_compute. reflexivity. Qed.

Lemma logLine_peers_15 :
  logLines
    [("peers in store",
      [("count", VFloat64 (S754_finite false 8444249301319680 (-49)))])]
  = "{ msg: peers in store; count: 15 }" +:+ nl.
Proof. vm_compute. reflexivity. Qed.

Lemma peers_watched : "peers in store" ∈ watched.
Proof. unfold watched. find_elem. Qed.

(** The scenario of C1 with other lines before, between and after the
    two, as long as none of them is a record for a watched key. *)
Lemma end_to_end_among_others (pre mid post : list string)
    (logs out : string) :
  Strings.Split logs LF
  = pre ++ line_peers_12 :: mid ++ line_peers_15 :: post ->
  Forall (fun line => forall key e, key ∈ watched ->
                                    record line <> Some (key, e))
    (pre ++ mid ++ post) ->
  out ∈ extractLogMessages logs
  <-> out = "{ msg: peers in store; count: 15 }" +:+ nl.
Proof.
  intros Hsplit Hothers.
  apply Forall_app in Hothers as [Hpre Hothers].
  apply Forall_app in Hothers as [Hmid Hpost].
  pose proof record_peers_15 as E15.
  destruct record_peers_12 as [e12 E12].
  assert (Hpeers : latest logs "peers in store" = Some entry_peers_15).
  { apply latest_Some. unfold scanLines. rewrite Hsplit.
    change (pre ++ line_peers_12 :: mid ++ line_peers_15 :: post)
      with (pre ++ (line_peers_12 :: mid) ++ line_peers_15 :: post).
    rewrite app_assoc.
    apply scan_hit; [apply messageTypes0_keys, peers_watched | exact E15 |].
    eapply Forall_impl; [exact Hpost |]. intros line H e. apply H.
    apply peers_watched. }
  assert (Honly : forall k, is_Some (latest logs k) <-> k = "peers in store").
  { intros k. split; [| intros ->; rewrite Hpeers; by eexists].
    intros Hk. destruct (decide (k = "peers in store")) as [|Hne]; [done |].
    exfalso. pose proof (latest_watched _ _ Hk) as Hw.
    assert (Hnone : latest logs k = None).
    2: { rewrite Hnone in Hk. by destruct Hk. }
    unfold latest, scanLines. rewrite Hsplit, scan_miss.
    - apply messageTypes0_nil.
    - apply Forall_app. split; [| apply Forall_cons; split;
                                    [| apply Forall_app; split;
                                       [| apply Forall_cons; split]]].
      + eapply Forall_impl; [exact Hpre |]. intros line H e. by apply H.
      + intros e He. apply Hne. exact (record_key_inj _ _ _ _ _ He E12).
      + eapply Forall_impl; [exact Hmid |]. intros line H e. by apply H.
      + intros e He. apply Hne. exact (record_key_inj _ _ _ _ _ He E15).
      + eapply Forall_impl; [exact Hpost |]. intros line H e. by apply H. }
  assert (Hto : forall o, o ∈ extractLogMessages logs ->
                          o = "{ msg: peers in store; count: 15 }" +:+ nl).
  { intros o (ls & Hem & ->)%extractLogMessages_emission.
    destruct (emission_single _ _ _ Hem Honly) as [fields ->].
    destruct Hem as (_ & _ & Hf).
    destruct (Hf "peers in store" fields) as (e & He & Hfields).
    { apply list_elem_of_here. }
    rewrite Hpeers in He. assert (e = entry_peers_15) as -> by congruence.
    rewrite fields_peers_15 in Hfields.
    apply Permutation_singleton_r in Hfields as ->.
    apply logLine_peers_15. }
  split; [apply Hto |]. intros ->.
  destruct (extractLogMessages_returns logs) as [o Ho].
  by rewrite <- (Hto o Ho).
Qed.

(** X18. Logs without a record for any watched key give the empty
    text, and nothing else. *)
Lemma no_records_no_output (logs out : string) :
  Forall (fun line => forall key e, key ∈ watched ->
                                    record line <> Some (key, e))
    (Strings.Split logs LF) ->
  out ∈ extractLogMessages logs <-> out = "".
Proof.
  intros Hnone.
  assert (Hto : forall o, o ∈ extractLogMessages logs -> o = "").
  { intros o (ls & (_ & Hkeys & _) & ->)%extractLogMessages_emission.
    destruct ls as [|[k fields] ls]; [done |]. exfalso.
    assert (Hk : is_Some (latest logs k)) by (apply Hkeys; by left).
    pose proof (latest_watched _ _ Hk) as Hw.
    assert (Hn : latest logs k = None); [| rewrite Hn in Hk; by destruct Hk].
    unfold latest, scanLines. rewrite scan_miss; [apply messageTypes0_nil |].
    eapply Forall_impl; [exact Hnone |]. intros line H e. by apply H. }
  split; [apply Hto |]. intros ->.
  destruct (extractLogMessages_returns logs) as [o Ho].
  by rewrite <- (Hto o Ho).
Qed.

(** * Further properties *)

(** ** The stat parsers, continued *)

Lemma Split_cons_sep (sep : ascii) (s : string) :
  Strings.Split (String sep s) sep = "" :: Strings.Split s sep.
Proof. simpl. by rewrite Ascii.eqb_refl. Qed.

(** Text with a separator in the middle splits into the pieces of its
    two sides. *)
Lemma Split_concat (sep : ascii) (a b : string) :
  Strings.Split (a +:+ String sep b) sep
  = Strings.Split a sep ++ Strings.Split b sep.
Proof.
  induction a as [|c a IH].
  - rewrite app_empty_l, Split_cons_sep. done.
  - rewrite app_cons. simpl. destruct (Ascii.eqb c sep); [by rewrite IH |].
    rewrite IH. pose proof (Split_not_nil sep a) as Hne.
    by destruct (Strings.Split a sep).
Qed.

(** There is one piece exactly when the separator does not occur. *)
Lemma Split_one (sep : ascii) (s : string) :
  (length (Strings.Split s sep) < 2)%nat <-> contains sep s = false.
Proof.
  induction s as [|c s IH]; simpl; [split; [done | lia] |].
  pose proof (Split_not_nil sep s) as Hne.
  destruct (Ascii.eqb c sep); simpl.
  - destruct (Strings.Split s sep); [done |]. simpl. split; [lia | done].
  - rewrite <- IH. by destruct (Strings.Split s sep).
Qed.

Lemma parseCPUUsage_returns (cpuStat : string) :
  is_Some (parseCPUUsage cpuStat)
  <-> (4 <= length (Strings.Fields cpuStat))%nat.
Proof.
  unfold parseCPUUsage.
  destruct (Strings.Fields cpuStat) as [|t1 [|t2 [|t3 [|t4 more]]]]; simpl;
    (split; intros H; try done; try lia; try (by destruct H);
     try (by eexists)).
Qed.

Lemma parseMemoryUsage_line2 (memStat line2 : string) :
  Strings.Split memStat LF !! 1%nat = Some line2 ->
  (is_Some (parseMemoryUsage memStat)
   <-> (3 <= length (Strings.Fields line2))%nat)
  /\ (parseMemoryUsage memStat = None
      <-> (length (Strings.Fields line2) < 3)%nat).
Proof.
  intros E. unfold parseMemoryUsage, index. rewrite E. simpl.
  destruct (Strings.Fields line2) as [|t1 [|total [|used more]]]; simpl;
    (split; split; intros H;
     try done; try lia; try (by destruct H); try (by eexists)).
Qed.

Lemma parseMemoryUsage_returns (memStat : string) :
  is_Some (parseMemoryUsage memStat)
  <-> exists line2,
        Strings.Split memStat LF !! 1%nat = Some line2
        /\ (3 <= length (Strings.Fields line2))%nat.
Proof.
  destruct (Strings.Split memStat LF !! 1%nat) as [line2|] eqn:E.
  - destruct (parseMemoryUsage_line2 _ _ E) as [-> _].
    split; [by exists line2 | by intros (l & [= <-] & H)].
  - unfold parseMemoryUsage, index. rewrite E. simpl. split.
    + by intros [? ?].
    + by intros (l & ? & _).
Qed.

(** X1. The memory parser returns exactly when the text has a second
    line with at least three white-space separated tokens.  It panics on
    an index out of range in every other case: when the text holds no
    line feed (the empty text included), and when the second line has
    fewer than three tokens. *)
Theorem parseMemoryUsage_total (memStat : string) :
  (is_Some (parseMemoryUsage memStat)
   <-> exists line2,
         Strings.Split memStat LF !! 1%nat = Some line2
         /\ (3 <= length (Strings.Fields line2))%nat)
  /\ (parseMemoryUsage memStat = None
      <-> contains LF memStat = false
          \/ exists line2,
               Strings.Split memStat LF !! 1%nat = Some line2
               /\ (length (Strings.Fields line2) < 3)%nat).
Proof.
  split; [apply parseMemoryUsage_returns |].
  destruct (Strings.Split memStat LF !! 1%nat) as [line2|] eqn:E.
  - destruct (parseMemoryUsage_line2 _ _ E) as [_ ->].
    assert (Hlf : contains LF memStat = true).
    { apply not_false_iff_true. intros H%Split_one.
      apply lookup_lt_Some in E. lia. }
    split; [right; by exists line2 |].
    intros [H|(l & [= <-] & H)]; [congruence | done].
  - assert (Hlf : contains LF memStat = false).
    { apply Split_one. apply lookup_ge_None in E. lia. }
    unfold parseMemoryUsage, index. rewrite E. simpl.
    split; [by left | done].
Qed.

Example parseMemoryUsage_empty : parseMemoryUsage "" = None.
Proof. vm_compute. reflexivity. Qed.

(** The second piece of a text whose first two lines are given. *)
Lemma Split_second (line1 line2 rest : string) :
  contains LF line1 = false ->
  contains LF line2 = false ->
  (rest = "" \/ exists r, rest = String LF r) ->
  Strings.Split (line1 +:+ nl +:+ line2 +:+ rest) LF !! 1%nat = Some line2.
Proof.
  intros H1 H2 Hrest. unfold nl. rewrite app_cons, app_empty_l.
  rewrite Split_concat, (Split_piece LF line1) by done. simpl.
  destruct Hrest as [->|[r ->]].
  - by rewrite app_empty_r, Split_piece.
  - rewrite Split_concat, (Split_piece LF line2) by done. done.
Qed.

(** A token followed by nothing, or by white space and anything, is the
    first field. *)
Lemma Fields_token_tail (w tail : string) :
  token w ->
  (tail = "" \/ exists sp more, spaces sp /\ tail = sp +:+ more) ->
  exists fields, Strings.Fields (w +:+ tail) = w :: fields.
Proof.
  intros Hw [->|(sp & more & Hsp & ->)].
  - rewrite app_empty_r, Fields_last_token by done. by eexists.
  - rewrite Fields_token by done. by eexists.
Qed.

(** X2. On a text whose first line is anything and whose second line
    is, after optional blanks, three plain tokens separated by blanks
    (with anything after the third, once separated by blanks), the
    memory parser returns the second token as the total and the third as
    the used memory, whatever the text holds after the second line. *)
Theorem parseMemoryUsage_text
    (line1 lead t1 s1 total s2 used tail rest : string) :
  contains LF line1 = false ->
  contains LF (lead +:+ t1 +:+ s1 +:+ total +:+ s2 +:+ used +:+ tail) = false ->
  all_bytes space_byte lead = true ->
  token t1 -> spaces s1 -> token total -> spaces s2 -> token used ->
  (tail = "" \/ exists sp more, spaces sp /\ tail = sp +:+ more) ->
  (rest = "" \/ exists r, rest = String LF r) ->
  parseMemoryUsage
    (line1 +:+ nl
     +:+ (lead +:+ t1 +:+ s1 +:+ total +:+ s2 +:+ used +:+ tail) +:+ rest)
  = Some ("Total Memory: " +:+ total +:+ " MB; Used Memory: " +:+ used
          +:+ " MB").
Proof.
  intros H1 H2 Hlead Ht1 Hs1 Htotal Hs2 Hused Htail Hrest.
  unfold parseMemoryUsage, index.
  rewrite Split_second by done. simpl.
  rewrite Fields_spaces by done.
  rewrite (Fields_token t1) by done.
  rewrite (Fields_spaces s1) by apply Hs1.
  rewrite (Fields_token total) by done.
  rewrite (Fields_spaces s2) by apply Hs2.
  destruct (Fields_token_tail used tail Hused Htail) as [fields ->].
  reflexivity.
Qed.

Lemma parseMemoryUsage_text_witness :
  parseMemoryUsage
    ("       total   used   free" +:+ nl
     +:+ ("" +:+ "Mem:" +:+ "   " +:+ "7976" +:+ "   " +:+ "1234"
          +:+ "   5120")
     +:+ String LF "Swap:  2047  0  2047")
  = Some "Total Memory: 7976 MB; Used Memory: 1234 MB".
Proof.
  apply (parseMemoryUsage_text "       total   used   free" "" "Mem:" "   "
           "7976" "   " "1234" "   5120" (String LF "Swap:  2047  0  2047")).
  - reflexivity.
  - reflexivity.
  - reflexivity.
  - split; [done | reflexivity].
  - split; [done | reflexivity].
  - split; [done | reflexivity].
  - split; [done | reflexivity].
  - split; [done | reflexivity].
  - right. exists "   ", "5120". split; [split; [done | reflexivity] | reflexivity].
  - right. by eexists.
Defined.

Lemma parseCPUUsage_line_witness :
  parseCPUUsage
    ("" +:+ "%Cpu(s):" +:+ "  " +:+ "3.1" +:+ " " +:+ "us," +:+ "  "
     +:+ "1.2" +:+ " " +:+ "sy,  0.0 ni, 95.7 id")
  = Some "User Space: 3.1%; System Space: 1.2%".
Proof.
  apply (parseCPUUsage_line "" "%Cpu(s):" "  " "3.1" " " "us," "  " "1.2" " "
           "sy,  0.0 ni, 95.7 id");
    first [reflexivity | split; [done | reflexivity]].
Defined.

(** ** The formatter *)

(** X4. The formatter returns exactly when it is given at least four
    texts, the first with at least four white-space separated tokens and
    the second with a second line of at least three; otherwise it
    panics on an index out of range.  The storage text and the log text
    cannot make it panic. *)
Theorem formatOutput_returns (ip : string) (stats : list string) :
  is_Some (formatOutput ip stats)
  <-> exists cpu mem storage logs more line2,
        stats = cpu :: mem :: storage :: logs :: more
        /\ (4 <= length (Strings.Fields cpu))%nat
        /\ Strings.Split mem LF !! 1%nat = Some line2
        /\ (3 <= length (Strings.Fields line2))%nat.
Proof.
  unfold formatOutput, index. split.
  - intros [outs H].
    destruct stats as [|cpu [|mem [|storage [|logs more]]]]; simpl in H;
      try done.
    + by destruct (parseCPUUsage cpu).
    + destruct (parseCPUUsage cpu); [| done]. simpl in H.
      by destruct (parseMemoryUsage mem).
    + destruct (parseCPUUsage cpu); [| done]. simpl in H.
      by destruct (parseMemoryUsage mem).
    + destruct (parseCPUUsage cpu) as [cpuUsage|] eqn:Ec; [| done].
      destruct (parseMemoryUsage mem) as [memoryUsage|] eqn:Em; [| done].
      assert (Hm : is_Some (parseMemoryUsage mem)) by (by rewrite Em).
      apply parseMemoryUsage_returns in Hm as (line2 & Hl & Hf).
      exists cpu, mem, storage, logs, more, line2.
      split; [done |]. split; [| done].
      apply parseCPUUsage_returns. by rewrite Ec.
  - intros (cpu & mem & storage & logs & more & line2 & -> & Hc & Hl & Hf).
    apply parseCPUUsage_returns in Hc as [cpuUsage Hc].
    assert (Hm : is_Some (parseMemoryUsage mem)).
    { apply parseMemoryUsage_returns. by exists line2. }
    destruct Hm as [memoryUsage Hm]. simpl. rewrite Hc. simpl.
    rewrite Hm. simpl. by eexists.
Qed.

(** X5. When the first text has the tokens [t1 user t3 system ...] and
    the second line of the second text has the tokens
    [m1 total used ...], the formatter returns one report for each
    result of the extractor on the fourth text: the node's address, the
    two percentages, the two amounts of memory, the third text as it is,
    and the extracted log lines.  Texts after the fourth are ignored. *)
Theorem formatOutput_report (ip cpu mem storage logs line2 : string)
    (more : list string) (t1 user t3 system m1 total used : string)
    (cpuMore memMore : list string) :
  Strings.Fields cpu = t1 :: user :: t3 :: system :: cpuMore ->
  Strings.Split mem LF !! 1%nat = Some line2 ->
  Strings.Fields line2 = m1 :: total :: used :: memMore ->
  formatOutput ip (cpu :: mem :: storage :: logs :: more)
  = Some (reportText ip user system total used storage
          <$> extractLogMessages logs).
Proof.
  intros Hcpu Hline Hmem.
  unfold formatOutput, parseCPUUsage, parseMemoryUsage, index. simpl.
  rewrite Hcpu. simpl. rewrite Hline. simpl. rewrite Hmem. simpl.
  f_equal. rewrite bind_singleton. apply list_fmap_ext. intros _ out _.
  unfold reportText. rewrite !app_assoc_s. reflexivity.
Qed.

Lemma formatOutput_report_witness :
  formatOutput "12.13.14.15" [top_line; free_output; df_output; line_peers_15]
  = Some (reportText "12.13.14.15" "3.1" "1.2" "7976" "1234" df_output
          <$> extractLogMessages line_peers_15).
Proof.
  eapply (formatOutput_report "12.13.14.15" top_line free_output df_output
            line_peers_15 _ [] _ "3.1" _ "1.2" _ "7976" "1234").
  - vm_compute. reflexivity.
  - vm_compute. reflexivity.
  - vm_compute. reflexivity.
Defined.

(** ** The per-node fetch *)

(** X6. When the dial to the node's address on port 22 with the node's
    user and password succeeds, four sessions open one after the other,
    and the three stats commands and the reader's command succeed, each
    in a session of its own, the fetch runs these four commands in that
    order and returns what the formatter makes of the node's address and
    the four outputs, in that order. *)
Theorem getNodeStatus_success {R : Type} `{LogReader R} (ssh_Dial : Dialer)
    (node : Node) (logReader : R) (cmd : string) (conn : Client)
    (s0 s1 s2 s3 : Session) (cpu mem storage logs : string) :
  (forall session, ReadLogs logReader session = run session cmd) ->
  ssh_Dial (IP node +:+ ":22") (Username node) (Password node)
  = Success conn ->
  NewSession conn 0 = Success s0 ->
  NewSession conn 1 = Success s1 ->
  NewSession conn 2 = Success s2 ->
  NewSession conn 3 = Success s3 ->
  Run s0 "top -b -n 1 | grep 'Cpu(s)'" = Success cpu ->
  Run s1 "free -m" = Success mem ->
  Run s2 "df -h /" = Success storage ->
  Run s3 cmd = Success logs ->
  getNodeStatus ssh_Dial node logReader
  = (statsCommands ++ [cmd],
     Success (formatOutput (IP node) [cpu; mem; storage; logs])).
Proof.
  intros Hread Hdial H0 H1 H2 H3 Hcpu Hmem Hstorage Hlogs.
  unfold getNodeStatus, statsCommands, runStats, run, wrap, bind, in_context,
    ret.
  rewrite Hdial, H0, Hcpu, H1, Hmem, H2, Hstorage, H3, Hread.
  unfold run. rewrite Hlogs. reflexivity.
Qed.

Lemma getNodeStatus_success_witness :
  getNodeStatus tmux_host node1 pane_q
  = (statsCommands ++ [TmuxLogReader_cmd pane_q],
     Success (formatOutput "12.13.14.15"
                [top_line; free_output; df_output; line_peers_15 +:+ nl])).
Proof.
  apply (getNodeStatus_success tmux_host node1 pane_q
           (TmuxLogReader_cmd pane_q)
           {| NewSession := fun _ => Success tmux_session |}
           tmux_session tmux_session tmux_session tmux_session);
    first [reflexivity | vm_compute; reflexivity].
Defined.

(** X7. When the fetch returns an error, it stopped at the first step
    that failed, and the error tells which: the dial, with no command
    run; the opening of a session, after the commands before it; a stats
    command, which is then the last command run and is named in the
    error; or the reader's command, run after the three stats commands
    and named in the error. *)
Theorem getNodeStatus_failure {R : Type} `{LogReader R} (ssh_Dial : Dialer)
    (node : Node) (logReader : R) (cmd err : string) (cmds : list string) :
  (forall session, ReadLogs logReader session = run session cmd) ->
  getNodeStatus ssh_Dial node logReader = (cmds, Failure err) ->
  (cmds = [] /\ exists e, err = "failed to dial: " +:+ e)
  \/ (cmds `prefix_of` statsCommands
      /\ exists e, err = "failed to create session: " +:+ e)
  \/ (exists done failed e,
        cmds = done ++ [failed]
        /\ cmds `prefix_of` statsCommands
        /\ err = "failed to run command '" +:+ failed +:+ "': " +:+ e)
  \/ (cmds = statsCommands ++ [cmd]
      /\ exists e,
           err = "failed to read logs: failed to run command '" +:+ cmd
                 +:+ "': " +:+ e).
Proof.
  intros Hread.
  unfold getNodeStatus, statsCommands, runStats, run, wrap, bind, in_context,
    ret.
  repeat (case_match; simplify_eq/=); intros [= <- <-].
  all: try match goal with
           | Hr : ReadLogs _ _ = _ |- _ =>
               rewrite Hread in Hr; unfold run in Hr;
               repeat (case_match; simplify_eq/=)
           end.
  all: first
    [ left; split; [done | by eexists]
    | right; left; split; [by eexists | by eexists]
    | right; right; left; exists [];
      eexists _, _; split; [reflexivity |]; split; [by eexists | reflexivity]
    | right; right; left; exists ["top -b -n 1 | grep 'Cpu(s)'"];
      eexists _, _; split; [reflexivity |]; split; [by eexists | reflexivity]
    | right; right; left; exists ["top -b -n 1 | grep 'Cpu(s)'"; "free -m"];
      eexists _, _; split; [reflexivity |]; split; [by eexists | reflexivity]
    | right; right; right; split; [done | by eexists] ].
Qed.

Lemma getNodeStatus_failure_witness :
  getNodeStatus healthy node1 pane_q
  = (statsCommands ++ [TmuxLogReader_cmd pane_q],
     Failure ("failed to read logs: failed to run command '"
              +:+ TmuxLogReader_cmd pane_q
              +:+ "': Process exited with status 127"))
  /\ exists e,
       "failed to read logs: failed to run command '"
       +:+ TmuxLogReader_cmd pane_q +:+ "': Process exited with status 127"
       = "failed to read logs: failed to run command '"
         +:+ TmuxLogReader_cmd pane_q +:+ "': " +:+ e.
Proof.
  assert (E : getNodeStatus healthy node1 pane_q
              = (statsCommands ++ [TmuxLogReader_cmd pane_q],
                 Failure ("failed to read logs: failed to run command '"
                          +:+ TmuxLogReader_cmd pane_q
                          +:+ "': Process exited with status 127")))
    by (vm_compute; reflexivity).
  split; [exact E |].
  destruct (getNodeStatus_failure healthy node1 pane_q
              (TmuxLogReader_cmd pane_q) _ _ (fun _ => eq_refl) E)
    as [[Hc _]|[[Hc _]|[(d & f & e & _ & Hc & _)|[_ He]]]].
  - discriminate Hc.
  - destruct Hc as [k Hk]. discriminate Hk.
  - destruct Hc as [k Hk]. discriminate Hk.
  - exact He.
Defined.

(** ** The start-up loop and the poll loop *)

(** X8.  The set-up loop adds one grid item per configured node, in the
    two columns 0 and 1, and no two of them in the same cell. *)
Theorem gridItems_layout (config : Config) :
  length (gridItems config) = length (Nodes config)
  /\ NoDup (gridItems config)
  /\ (forall row col, (row, col) ∈ gridItems config ->
        (col < 2 /\ 2 * row + col < length (Nodes config))%nat).
Proof.
  unfold gridItems, gridCell. split; [by rewrite length_imap |]. split.
  - apply NoDup_alt. intros i j cell Hi Hj.
    apply list_lookup_imap_Some in Hi as (n1 & Hn1 & Hi).
    apply list_lookup_imap_Some in Hj as (n2 & Hn2 & Hj).
    rewrite Hi in Hj.
    pose proof (f_equal fst Hj) as Hr. pose proof (f_equal snd Hj) as Hc.
    cbn [fst snd] in Hr, Hc.
    rewrite (Nat.div_mod_eq i 2), (Nat.div_mod_eq j 2). congruence.
  - intros row col Hin.
    apply list_elem_of_lookup in Hin as [i Hi].
    apply list_lookup_imap_Some in Hi as (n & Hn & Hi).
    pose proof (f_equal fst Hi) as Hr. pose proof (f_equal snd Hi) as Hc.
    cbn [fst snd] in Hr, Hc. subst row col.
    apply lookup_lt_Some in Hn.
    split; [apply Nat.mod_upper_bound; lia |].
    by rewrite <- (Nat.div_mod_eq i 2).
Qed.

(** The calls of the goroutine of slot [i] that shows [text]. *)
Lemma pollCycle_tasks (ssh_Dial : Dialer) (config : Config)
    (calls : list call) :
  pollCycle ssh_Dial config calls <->
  exists texts,
    Forall2 (slotText ssh_Dial) (Nodes config) texts
    /\ interleaving
         (imap (fun i text =>
                  [SetText i text; QueueUpdateDraw [SetText i text]]) texts)
         calls.
Proof.
  unfold pollCycle.
  assert (Hgen : forall nodes k tasks,
    Forall2 (fun (n : nat * Node) (t : list call) =>
               exists alts, (nodeTask ssh_Dial n.1 n.2).2 = Some alts
                            /\ t ∈ alts)
      (imap (fun i => pair (k + i)%nat) nodes) tasks
    <-> exists texts,
          Forall2 (slotText ssh_Dial) nodes texts
          /\ tasks
             = imap (fun i text =>
                       [SetText (k + i)%nat text;
                        QueueUpdateDraw [SetText (k + i)%nat text]]) texts).
  { induction nodes as [|node nodes IH]; intros k tasks.
    - simpl. split.
      + intros ->%Forall2_nil_inv_l. exists []. by split; [constructor |].
      + intros (texts & ->%Forall2_nil_inv_l & ->). constructor.
    - rewrite imap_cons. split.
      + intros (t & tasks' & (alts & Halts & Hin) & Hrest & ->)
                 %Forall2_cons_inv_l.
        simpl in Halts.
        destruct (nodeTask_calls _ _ _ _ _ Halts Hin) as (text & -> & Htext).
        rewrite (imap_ext _ (fun i => pair (S k + i)%nat)) in Hrest
          by (intros; simpl; f_equal; lia).
        apply IH in Hrest as (texts & Htexts & ->).
        exists (text :: texts). split; [by constructor |].
        rewrite imap_cons. f_equal.
        apply imap_ext. intros; simpl. by rewrite Nat.add_succ_r.
      + intros (texts & (text & texts' & Htext & Hrest & ->)
                          %Forall2_cons_inv_l & ->).
        rewrite imap_cons. constructor.
        * simpl. unfold slotText in Htext. unfold nodeTask.
          fold ceremonyclient.
          destruct (getNodeStatus ssh_Dial node ceremonyclient)
            as [cmds [[outputs|]|err]]; simpl in *.
          -- eexists. split; [done |]. apply list_elem_of_fmap.
             by exists text.
          -- done.
          -- subst text. eexists. split; [done |].
             by apply list_elem_of_singleton.
        * rewrite (imap_ext _ (fun i => pair (S k + i)%nat))
            by (intros; simpl; f_equal; lia).
          apply IH. exists texts'. split; [done |].
          apply imap_ext. intros; simpl. by rewrite Nat.add_succ_r. }
  split.
  - intros (tasks & Htasks & Hil).
    apply (Hgen _ 0%nat) in Htasks as (texts & Htexts & ->). by exists texts.
  - intros (texts & Htexts & Hil). eexists. split; [| exact Hil].
    apply (Hgen _ 0%nat). by exists texts.
Qed.

(** What an interleaving keeps of its tasks: the calls, and the order of
    each task's own calls. *)
Lemma interleaving_Permutation {A : Type} (tasks : list (list A))
    (calls : list A) :
  interleaving tasks calls -> calls ≡ₚ concat tasks.
Proof.
  induction 1 as [tasks Hnil|tasks j x t tr Hj _ IH].
  - induction Hnil as [|t tasks -> _ IH]; [done |]. simpl. exact IH.
  - rewrite IH. clear IH.
    rewrite <- (take_drop_middle tasks j (x :: t) Hj) at 2.
    rewrite insert_take_drop by (by eapply lookup_lt_Some).
    rewrite !concat_app. simpl.
    by rewrite <- Permutation_middle.
Qed.

Lemma interleaving_sublist {A : Type} (tasks : list (list A))
    (calls : list A) (j : nat) (t : list A) :
  interleaving tasks calls -> tasks !! j = Some t -> t `sublist_of` calls.
Proof.
  intros Hil. revert j t.
  induction Hil as [tasks Hnil|tasks k x t' tr Hk _ IH]; intros j t Hj.
  - rewrite Forall_lookup in Hnil. by rewrite (Hnil _ _ Hj).
  - destruct (decide (j = k)) as [->|Hne].
    + rewrite Hk in Hj. injection Hj as <-. apply sublist_skip.
      apply (IH k). apply list_lookup_insert_eq. by eapply lookup_lt_Some.
    + apply sublist_cons. apply (IH j).
      by rewrite list_lookup_insert_ne.
Qed.

(** The text of a view after a sequence of writes: the last one written
    to it, if any. *)
Lemma display_lookup (calls : list call) (textViews : list string)
    (i : nat) :
  (i < length textViews)%nat ->
  display calls textViews !! i
  = match last (written i calls) with
    | Some text => Some text
    | None => textViews !! i
    end.
Proof.
  unfold display, written.
  generalize (flat_map setTexts calls). intros ps. revert textViews.
  induction ps as [|[j text] ps IH]; intros textViews Hi; [done |].
  simpl. rewrite IH by (by rewrite length_insert).
  rewrite filter_cons. simpl. destruct (decide (j = i)) as [->|Hne].
  - rewrite fmap_cons, last_cons. simpl.
    destruct (last _); [done |]. by rewrite list_lookup_insert_eq.
  - by rewrite list_lookup_insert_ne.
Qed.

Lemma display_length (calls : list call) (textViews : list string) :
  length (display calls textViews) = length textViews.
Proof.
  unfold display. generalize (flat_map setTexts calls). intros ps.
  revert textViews.
  induction ps as [|p ps IH]; intros textViews; [done |].
  simpl. by rewrite IH, length_insert.
Qed.

(** The texts written to each slot in a pass. *)
Lemma pollCycle_written (texts : list string) (calls : list call) (i : nat) :
  interleaving
    (imap (fun i text => [SetText i text; QueueUpdateDraw [SetText i text]])
       texts) calls ->
  written i calls
  = match texts !! i with Some text => [text; text] | None => [] end.
Proof.
  intros Hil. rewrite (interleaving_written i _ calls Hil).
  - rewrite list_lookup_imap. destruct (texts !! i) as [text|]; [| done].
    simpl. rewrite written_task. by rewrite decide_True.
  - intros j t Hj Hne.
    apply list_lookup_imap_Some in Hj as (text & _ & ->).
    rewrite written_task. by rewrite decide_False.
Qed.

(** X9.  After a pass of the poll loop, each view shows the text of its
    own node from this pass, whatever the views showed before: a report
    of the node, or its error text. *)
Theorem pollCycle_display (ssh_Dial : Dialer) (config : Config)
    (calls : list call) (textViews : list string) :
  pollCycle ssh_Dial config calls ->
  length textViews = length (Nodes config) ->
  Forall2 (slotText ssh_Dial) (Nodes config) (display calls textViews).
Proof.
  intros (texts & Htexts & Hil)%pollCycle_tasks Hlen.
  assert (display calls textViews = texts) as ->; [| done].
  apply Forall2_length in Htexts.
  apply list_eq. intros i.
  destruct (decide (i < length textViews)%nat) as [Hi|Hi].
  - rewrite display_lookup by done. rewrite (pollCycle_written texts) by done.
    destruct (lookup_lt_is_Some_2 texts i) as [text Ht]; [lia |].
    by rewrite Ht.
  - rewrite !lookup_ge_None_2; [done | lia |].
    rewrite display_length. lia.
Qed.

Lemma pollCycle_display_witness :
  pollCycle one_down two_nodes
    [SetText 0 report1; SetText 1 error2;
     QueueUpdateDraw [SetText 1 error2];
     QueueUpdateDraw [SetText 0 report1]]
  /\ length ["old 1"; "old 2"] = length (Nodes two_nodes)
  /\ Forall2 (slotText one_down) (Nodes two_nodes)
       (display [SetText 0 report1; SetText 1 error2;
                 QueueUpdateDraw [SetText 1 error2];
                 QueueUpdateDraw [SetText 0 report1]] ["old 1"; "old 2"]).
Proof.
  split; [exact pollCycle_two_nodes |]. split; [reflexivity |].
  exact (pollCycle_display one_down two_nodes _ ["old 1"; "old 2"]
           pollCycle_two_nodes eq_refl).
Defined.

(** X10.  In a pass of the poll loop there are two display calls per
    node, no view outside the ones created at start-up is written, and
    for every node the goroutine's own SetText comes before the update
    it queues. *)
Theorem pollCycle_calls (ssh_Dial : Dialer) (config : Config)
    (calls : list call) :
  pollCycle ssh_Dial config calls ->
  length calls = (2 * length (Nodes config))%nat
  /\ (forall i text, (i, text) ∈ flat_map setTexts calls ->
        (i < length (Nodes config))%nat)
  /\ (forall i, (i < length (Nodes config))%nat ->
        exists text,
          [SetText i text; QueueUpdateDraw [SetText i text]]
            `sublist_of` calls).
Proof.
  intros (texts & Htexts & Hil)%pollCycle_tasks.
  apply Forall2_length in Htexts. rewrite Htexts. clear Htexts.
  pose proof (interleaving_Permutation _ _ Hil) as Hperm.
  split; [| split].
  - rewrite Hperm. clear.
    assert (Hgen : forall f : nat -> string -> list call,
               (forall i text, length (f i text) = 2%nat) ->
               length (concat (imap f texts)) = (2 * length texts)%nat).
    { induction texts as [|text texts IH]; intros f Hf; [done |].
      rewrite imap_cons. simpl. rewrite length_app, Hf, IH by (intros; apply Hf).
      simpl. lia. }
    by apply Hgen.
  - intros i text Hin.
    apply list_elem_of_In, in_flat_map in Hin as (c & Hc & Hin).
    apply list_elem_of_In in Hc, Hin. rewrite Hperm in Hc.
    apply list_elem_of_In, in_concat in Hc as (t & Ht & Hc).
    apply list_elem_of_In in Ht, Hc.
    apply list_elem_of_lookup in Ht as [j Hj].
    apply list_lookup_imap_Some in Hj as (text' & Hj & ->).
    apply lookup_lt_Some in Hj.
    apply elem_of_cons in Hc as [->|Hc];
      [| apply list_elem_of_singleton in Hc as ->]; simpl in Hin.
    + apply list_elem_of_singleton in Hin. by simplify_eq.
    + apply list_elem_of_singleton in Hin. by simplify_eq.
  - intros i Hi. destruct (lookup_lt_is_Some_2 texts i Hi) as [text Ht].
    exists text. apply (interleaving_sublist _ _ i _ Hil).
    by rewrite list_lookup_imap, Ht.
Qed.

Lemma pollCycle_calls_witness :
  pollCycle one_down two_nodes
    [SetText 0 report1; SetText 1 error2;
     QueueUpdateDraw [SetText 1 error2];
     QueueUpdateDraw [SetText 0 report1]]
  /\ exists text,
       [SetText 1 text; QueueUpdateDraw [SetText 1 text]]
         `sublist_of` [SetText 0 report1; SetText 1 error2;
                       QueueUpdateDraw [SetText 1 error2];
                       QueueUpdateDraw [SetText 0 report1]].
Proof.
  split; [exact pollCycle_two_nodes |].
  destruct (pollCycle_calls one_down two_nodes _ pollCycle_two_nodes)
    as (_ & _ & Hord).
  apply (Hord 1%nat). simpl. lia.
Defined.

(** The fetch returns without error only when the dial, the four
    sessions and the four commands succeeded, and then with what
    [formatOutput] makes of the four outputs. *)
Lemma getNodeStatus_answers {R : Type} `{LogReader R}
    (ssh_Dial : Dialer) (node : Node) (logReader : R) (cmd : string)
    (o : option (list string)) :
  (forall session, ReadLogs logReader session = run session cmd) ->
  (getNodeStatus ssh_Dial node logReader).2 = Success o ->
  exists conn s0 s1 s2 s3 cpu mem storage logs,
    ssh_Dial (IP node +:+ ":22") (Username node) (Password node)
    = Success conn
    /\ NewSession conn 0 = Success s0
    /\ Run s0 "top -b -n 1 | grep 'Cpu(s)'" = Success cpu
    /\ NewSession conn 1 = Success s1
    /\ Run s1 "free -m" = Success mem
    /\ NewSession conn 2 = Success s2
    /\ Run s2 "df -h /" = Success storage
    /\ NewSession conn 3 = Success s3
    /\ Run s3 cmd = Success logs
    /\ o = formatOutput (IP node) [cpu; mem; storage; logs].
Proof.
  intros Hread.
  unfold getNodeStatus, statsCommands, runStats, run, wrap, bind, in_context,
    ret.
  repeat (case_match; simplify_eq/=); intros [= <-].
  match goal with
  | Hr : ReadLogs _ _ = _ |- _ =>
      rewrite Hread in Hr; unfold run in Hr;
      repeat (case_match; simplify_eq/=)
  end.
  eexists _, _, _, _, _, _, _, _, _. repeat split; eassumption.
Qed.

(** X11.  In a pass of the poll loop that completes, every node's fetch
    either failed with an error, which the view then shows, or went all
    the way: the dial, the four sessions and the four commands
    succeeded, the answer to [top] has at least four white-space
    separated tokens and the answer to [free] has a second line with at
    least three.  With fewer tokens the formatter panics, and the pass
    does not complete. *)
Theorem completed_pass_answers (ssh_Dial : Dialer) (config : Config)
    (calls : list call) (node : Node) :
  pollCycle ssh_Dial config calls ->
  node ∈ Nodes config ->
  (exists err, (getNodeStatus ssh_Dial node ceremonyclient).2 = Failure err)
  \/ exists conn s0 s1 s2 s3 cpu mem storage logs line2,
       ssh_Dial (IP node +:+ ":22") (Username node) (Password node)
       = Success conn
       /\ NewSession conn 0 = Success s0
       /\ Run s0 "top -b -n 1 | grep 'Cpu(s)'" = Success cpu
       /\ NewSession conn 1 = Success s1
       /\ Run s1 "free -m" = Success mem
       /\ NewSession conn 2 = Success s2
       /\ Run s2 "df -h /" = Success storage
       /\ NewSession conn 3 = Success s3
       /\ Run s3 (ServiceLogReader_cmd ceremonyclient) = Success logs
       /\ (4 <= length (Strings.Fields cpu))%nat
       /\ Strings.Split mem LF !! 1%nat = Some line2
       /\ (3 <= length (Strings.Fields line2))%nat.
Proof.
  intros (texts & Htexts & _)%pollCycle_tasks Hnode.
  apply list_elem_of_lookup in Hnode as [i Hnode].
  destruct (Forall2_lookup_l _ _ _ _ _ Htexts Hnode) as (text & _ & Ht).
  unfold slotText in Ht.
  destruct (getNodeStatus ssh_Dial node ceremonyclient).2
    as [[outputs|]|err] eqn:Hr; [| done | left; by exists err].
  right.
  destruct (getNodeStatus_answers ssh_Dial node ceremonyclient
              (ServiceLogReader_cmd ceremonyclient) _
              (fun _ => eq_refl) Hr)
    as (conn & s0 & s1 & s2 & s3 & cpu & mem & storage & logs
        & Hd & H0 & Hcpu & H1 & Hmem & H2 & Hst & H3 & Hlogs & Hf).
  symmetry in Hf. unfold formatOutput, index in Hf. simpl in Hf.
  destruct (parseCPUUsage cpu) as [cpuUsage|] eqn:Ec; [| done].
  simpl in Hf.
  destruct (parseMemoryUsage mem) as [memoryUsage|] eqn:Em; [| done].
  assert (Hc : is_Some (parseCPUUsage cpu)) by (by rewrite Ec).
  assert (Hm : is_Some (parseMemoryUsage mem)) by (by rewrite Em).
  apply parseCPUUsage_returns in Hc.
  apply parseMemoryUsage_returns in Hm as (line2 & Hl & Hfm).
  exists conn, s0, s1, s2, s3, cpu, mem, storage, logs, line2.
  repeat split; assumption.
Qed.

Lemma completed_pass_answers_witness :
  pollCycle one_down two_nodes
    [SetText 0 report1; SetText 1 error2;
     QueueUpdateDraw [SetText 1 error2];
     QueueUpdateDraw [SetText 0 report1]]
  /\ node1 ∈ Nodes two_nodes
  /\ ((exists err,
         (getNodeStatus one_down node1 ceremonyclient).2 = Failure err)
      \/ exists conn s0 s1 s2 s3 cpu mem storage logs line2,
           one_down (IP node1 +:+ ":22") (Username node1) (Password node1)
           = Success conn
           /\ NewSession conn 0 = Success s0
           /\ Run s0 "top -b -n 1 | grep 'Cpu(s)'" = Success cpu
           /\ NewSession conn 1 = Success s1
           /\ Run s1 "free -m" = Success mem
           /\ NewSession conn 2 = Success s2
           /\ Run s2 "df -h /" = Success storage
           /\ NewSession conn 3 = Success s3
           /\ Run s3 (ServiceLogReader_cmd ceremonyclient) = Success logs
           /\ (4 <= length (Strings.Fields cpu))%nat
           /\ Strings.Split mem LF !! 1%nat = Some line2
           /\ (3 <= length (Strings.Fields line2))%nat).
Proof.
  assert (Hnode : node1 ∈ Nodes two_nodes) by (unfold two_nodes; find_elem).
  split; [exact pollCycle_two_nodes |]. split; [exact Hnode |].
  exact (completed_pass_answers one_down two_nodes _ node1
           pollCycle_two_nodes Hnode).
Defined.

(** ** The extractor, continued *)

Lemma lastRecord_cons (key line : string) (lines : list string) :
  lastRecord key (line :: lines)
  = match lastRecord key lines with
    | Some logEntry => Some logEntry
    | None => recordFor key line
    end.
Proof.
  unfold lastRecord. simpl. destruct (recordFor key line) as [e|]; simpl.
  - rewrite last_cons. by destruct (last _).
  - by destruct (last _).
Qed.

Lemma lastRecord_app (key : string) (older newer : list string) :
  lastRecord key (older ++ newer)
  = match lastRecord key newer with
    | Some logEntry => Some logEntry
    | None => lastRecord key older
    end.
Proof.
  induction older as [|line older IH]; simpl.
  - by destruct (lastRecord key newer).
  - rewrite !lastRecord_cons, IH. by destruct (lastRecord key newer).
Qed.

(** What the first loop stores under the keys that the map has. *)
Lemma scan_lastRecord (lines : list string) :
  forall (m : gmap string (option entry)) (key : string),
    foldl scanLine m lines !! key
    = match m !! key with
      | Some stored =>
          Some match lastRecord key lines with
               | Some logEntry => Some logEntry
               | None => stored
               end
      | None => None
      end.
Proof.
  induction lines as [|line lines IH]; intros m key; simpl.
  - by destruct (m !! key).
  - rewrite IH, lastRecord_cons, scanLine_record. unfold recordFor.
    destruct (record line) as [[msg logEntry]|];
      [| by destruct (m !! key), (lastRecord key lines)].
    destruct (decide (msg = key)) as [->|Hne].
    + destruct (decide (is_Some (m !! key))) as [[stored Hs]|Hn].
      * rewrite lookup_insert_eq, Hs. by destruct (lastRecord key lines).
      * apply eq_None_not_Some in Hn. by rewrite Hn.
    + destruct (decide (is_Some (m !! msg)));
        [rewrite lookup_insert_ne by done |];
        by destruct (m !! key), (lastRecord key lines).
Qed.

Lemma scanLines_lookup (logs key : string) :
  scanLines logs !! key
  = if decide (key ∈ watched)
    then Some (lastRecord key (Strings.Split logs LF))
    else None.
Proof.
  unfold scanLines. rewrite scan_lastRecord.
  destruct (decide (key ∈ watched)) as [Hw|Hw].
  - apply messageTypes0_keys in Hw as [stored Hs].
    pose proof (messageTypes0_nil key) as Hnil. rewrite Hs in *.
    simpl in Hnil. subst stored. by destruct (lastRecord _ _).
  - destruct (messageTypes0 !! key) eqn:Hs; [| done].
    destruct Hw. apply messageTypes0_keys. by eexists.
Qed.

(** X12.  The entry that the first loop stores for a key: the entry of
    the last line that is a record with that message, when the key is
    one of the three watched ones; none for any other key. *)
Theorem latest_lastRecord (logs key : string) :
  latest logs key
  = if decide (key ∈ watched)
    then lastRecord key (Strings.Split logs LF)
    else None.
Proof.
  unfold latest. rewrite scanLines_lookup. by destruct (decide _).
Qed.

(** X13.  The results of the extractor depend on the logs only through
    the last record of each watched key. *)
Theorem extractLogMessages_last_records (logs1 logs2 : string) :
  (forall key, key ∈ watched ->
     lastRecord key (Strings.Split logs1 LF)
     = lastRecord key (Strings.Split logs2 LF)) ->
  extractLogMessages logs1 = extractLogMessages logs2.
Proof.
  intros Hsame. unfold extractLogMessages.
  assert (scanLines logs1 = scanLines logs2) as ->; [| done].
  apply map_eq. intros key. rewrite !scanLines_lookup.
  destruct (decide (key ∈ watched)); [| done]. by rewrite Hsame.
Qed.

(** X14.  Logs that come after others: for each key the newer record
    wins, and the older one stays when the newer logs have none. *)
Theorem latest_newer_logs (older newer key : string) :
  latest (older +:+ nl +:+ newer) key
  = match latest newer key with
    | Some logEntry => Some logEntry
    | None => latest older key
    end.
Proof.
  rewrite !latest_lastRecord. destruct (decide (key ∈ watched)); [| done].
  unfold nl. rewrite app_cons, app_empty_l, Split_concat.
  apply lastRecord_app.
Qed.

Lemma extractLogMessages_last_records_witness :
  extractLogMessages (line_peers_12 +:+ nl +:+ line_peers_15)
  = extractLogMessages line_peers_15.
Proof.
  apply extractLogMessages_last_records. intros key Hkey.
  apply elem_of_cons in Hkey as [->|Hkey]; [vm_compute; reflexivity |].
  apply elem_of_cons in Hkey as [->|Hkey]; [vm_compute; reflexivity |].
  apply list_elem_of_singleton in Hkey as ->. vm_compute; reflexivity.
Defined.

Lemma recordFor_watched (key line : string) (logEntry : entry) :
  key ∈ watched ->
  recordFor key line = Some logEntry ->
  watched_record line = true.
Proof.
  unfold recordFor, watched_record. intros Hkey.
  destruct (record line) as [[msg e]|]; [| done].
  destruct (decide (msg = key)) as [->|]; [| done].
  intros _. by apply bool_decide_eq_true.
Qed.

Lemma lastRecord_filter (key : string) (lines : list string) :
  key ∈ watched ->
  lastRecord key (filter (fun line => watched_record line = true) lines)
  = lastRecord key lines.
Proof.
  intros Hkey. induction lines as [|line lines IH]; [done |].
  rewrite filter_cons. case_decide as Hw.
  - by rewrite !lastRecord_cons, IH.
  - rewrite lastRecord_cons, IH.
    destruct (recordFor key line) as [e|] eqn:He;
      [| by destruct (lastRecord key lines)].
    destruct Hw. by eapply recordFor_watched.
Qed.

(** X15.  Only the records of the watched keys count: without every
    other line, the results are the same. *)
Theorem other_lines_ignored (logs : string) :
  extractLogMessages
    (Strings.Join
       (filter (fun line => watched_record line = true)
          (Strings.Split logs LF))
       nl)
  = extractLogMessages logs.
Proof.
  unfold extractLogMessages.
  match goal with |- (_ ← range ?a; _) = (_ ← range ?b; _) =>
    assert (a = b) as ->; [| done] end.
  apply map_eq. intros key. rewrite !scanLines_lookup.
  destruct (decide (key ∈ watched)) as [Hkey|]; [| done]. f_equal.
  rewrite <- (lastRecord_filter key (Strings.Split logs LF)) by done.
  destruct (filter _ (Strings.Split logs LF)) as [|l kept'] eqn:E.
  - vm_compute. reflexivity.
  - rewrite <- E. unfold nl. rewrite Split_Join; [done | by rewrite E |].
    apply Forall_forall. intros line [_ Hline]%list_elem_of_filter.
    revert line Hline. apply Forall_forall, Split_pieces.
Qed.

(** X16.  What the second loop emits: at most three lines, each for a
    watched key and no two for the same key; in a line no field twice,
    and never one of the fields level, ts, caller and msg of the record,
    so that the test [key != "msg"] of the inner loop never fails and
    every field that the loop visits is written.  The lines are those
    that the loop emits: a string field that holds line feeds is written
    as it is, so the text can have more line feeds than that. *)
Theorem extractLogMessages_lines (logs out : string) :
  out ∈ extractLogMessages logs ->
  exists ls,
    emission logs ls
    /\ out = logLines ls
    /\ (length ls <= 3)%nat
    /\ NoDup ls.*1
    /\ forall key fields, (key, fields) ∈ ls ->
         key ∈ watched
         /\ (exists logEntry,
               latest logs key = Some logEntry
               /\ fields ∈ range (strip logEntry))
         /\ NoDup fields.*1
         /\ (forall k, k ∈ fields.*1 -> k ∉ deleted)
         /\ forall kv, kv ∈ fields ->
              kv.1 <> "msg" /\ writeField kv = fieldText kv.
Proof.
  intros (ls & Hem & ->)%extractLogMessages_emission.
  pose proof Hem as (Hnodup & Hkeys & Hfields).
  exists ls. split; [done |]. split; [done |].
  assert (Hw : forall key, key ∈ ls.*1 -> key ∈ watched).
  { intros key Hkey. apply (latest_watched logs). by apply Hkeys. }
  split; [| split; [done |]].
  - rewrite <- (length_fmap fst).
    change 3%nat with (length watched).
    apply submseteq_length, NoDup_submseteq; done.
  - intros key fields Hin.
    destruct (Hfields _ _ Hin) as (logEntry & Hlatest & Hperm).
    assert (Hdel : forall k, k ∈ fields.*1 -> k ∉ deleted)
      by (intros k; by apply (emission_fields logs ls key)).
    split; [| split; [| split; [| split; [done |]]]].
    + apply Hw, list_elem_of_fmap. by exists (key, fields).
    + exists logEntry. split; [done |]. unfold range.
      by apply permutations_Permutation.
    + rewrite Hperm. apply NoDup_fst_map_to_list.
    + intros [k v] Hkv.
      assert (Hk : k <> "msg").
      { intros ->. apply (Hdel "msg"); [| apply msg_deleted].
        apply list_elem_of_fmap. by exists ("msg", v). }
      split; [done |]. by apply writeField_fieldText.
Qed.

(** ** Numbers in the output *)

Lemma finite_members_insert (m : gmap string value) (k : string)
    (v : value) :
  finite_value v -> finite_members m -> finite_members (<[k := v]> m).
Proof.
  intros Hv Hm k' f. destruct (decide (k' = k)) as [->|Hne].
  - rewrite lookup_insert_eq. intros [= ->]. exact Hv.
  - rewrite lookup_insert_ne by done. apply Hm.
Qed.

Lemma put_finite (v : value) (stack : list Json.frame) (err : bool) :
  (err = false -> finite_value v) ->
  (err = false -> Forall finite_frame stack) ->
  finite_state (Json.put v stack err).
Proof.
  intros Hv Hstack. unfold Json.put.
  destruct stack as [|[l|m k] st]; intros Herr; simpl in Herr;
    specialize (Hv Herr); specialize (Hstack Herr); simpl.
  - by split.
  - split; [| done]. inversion Hstack; subst. by constructor.
  - split; [| done]. inversion Hstack as [|? ? Hm Hst]; subst.
    constructor; [| done]. by apply finite_members_insert.
Qed.

Lemma begin_value_finite (t : Json.token) (stack : list Json.frame)
    (err : bool) (d : Json.dstate) :
  Json.begin_value t stack err = Some d ->
  (err = false -> Forall finite_frame stack) ->
  finite_state d /\ (Json.d_range_err d = false -> err = false).
Proof.
  intros Hb Hstack.
  assert (Hput : forall v e, (e = false -> finite_value v) ->
                             (e = false -> err = false) ->
                             finite_state (Json.put v stack e)
                             /\ (Json.d_range_err (Json.put v stack e) = false
                                 -> err = false)).
  { intros v e Hv He. split.
    - apply put_finite; [done |]. intros H. by apply Hstack, He.
    - unfold Json.put. destruct stack as [|[l|m k] st]; simpl; exact He. }
  destruct t; simpl in Hb; try done.
  - unfold Json.push in Hb. case_match; [done |]. injection Hb as <-.
    split; [| done]. intros Herr. simpl in *. split; [| done].
    constructor; [| by apply Hstack]. intros k f. by rewrite lookup_empty.
  - unfold Json.push in Hb. case_match; [done |]. injection Hb as <-.
    split; [| done]. intros Herr. simpl in *. split; [| done].
    constructor; [done | by apply Hstack].
  - injection Hb as <-. by apply Hput.
  - destruct (Strconv.ParseFloat neg int frac eneg edigits) as [f|] eqn:Hf;
      injection Hb as <-.
    + apply Hput; [| done]. intros _. simpl.
      exact (ParseFloat_finite _ _ _ _ _ _ Hf).
    + by apply Hput.
  - injection Hb as <-. by apply Hput.
  - injection Hb as <-. by apply Hput.
  - injection Hb as <-. by apply Hput.
Qed.

Lemma dstep_finite (d d' : Json.dstate) (t : Json.token) :
  Json.dstep d t = Some d' ->
  finite_state d ->
  finite_state d' /\ (Json.d_range_err d' = false
                      -> Json.d_range_err d = false).
Proof.
  destruct d as [e stack err]. unfold finite_state at 1. simpl.
  intros Hstep Hd.
  assert (Hstack : err = false -> Forall finite_frame stack)
    by (intros H; by apply Hd).
  assert (Hpop : forall v f st,
             stack = f :: st ->
             (Forall finite_frame stack -> finite_value v) ->
             finite_state (Json.put v st err)
             /\ (Json.d_range_err (Json.put v st err) = false
                 -> err = false)).
  { intros v f st -> Hv. split.
    - apply put_finite.
      + intros H. by apply Hv, Hstack.
      + intros H. specialize (Hstack H). by inversion Hstack.
    - unfold Json.put. by destruct st as [|[l|m k] st]. }
  destruct e, t, stack as [|[l|m k] st]; cbn [Json.dstep] in Hstep;
    try done;
    try (by eapply begin_value_finite);
    try (injection Hstep as <-;
         first
           [ by eapply Hpop
           | eapply Hpop; [done |]; intros H; by inversion H
           | split; [| done]; intros Herr; simpl in *; split; [| done];
             specialize (Hstack Herr); inversion Hstack; subst;
             by constructor
           | split; [| done]; intros Herr; simpl in *; split; [| done];
             by apply Hstack ]).
Qed.

(** A text that the decoder accepts without a range error holds no
    number that is not finite among the members of its object. *)
Lemma decode_finite (ts : list Json.token) :
  forall (d : Json.dstate) (v : value),
    Json.decode d ts = Some (v, false) -> finite_state d -> finite_value v.
Proof.
  induction ts as [|t ts IH]; intros d v; simpl.
  - destruct d as [e stack err]. simpl.
    destruct e; try done. intros [= -> ->] Hd. by apply Hd.
  - intros Hdec Hd.
    destruct (Json.dstep d t) as [d'|] eqn:Hstep; [| done]. simpl in Hdec.
    destruct (dstep_finite _ _ _ Hstep Hd) as [Hd' _].
    by eapply IH.
Qed.

Lemma record_finite (line msg : string) (logEntry : entry) :
  record line = Some (msg, logEntry) -> finite_members logEntry.
Proof.
  unfold record, Json.Unmarshal, Json.parse. intros Hr.
  destruct (Json.scan Json.MValue line) as [ts|] eqn:Hscan; [| done].
  simpl in Hr.
  destruct (Json.decode _ ts) as [[v err]|] eqn:Hdec; [| done].
  destruct v as [| | | | |m]; try done.
  destruct err; [done |].
  assert (Hm : finite_value (VMap m)).
  { eapply decode_finite; [exact Hdec |]. intros _. by split. }
  repeat case_match; by simplify_eq.
Qed.

Lemma lastRecord_record (key : string) (lines : list string)
    (logEntry : entry) :
  lastRecord key lines = Some logEntry ->
  exists line, line ∈ lines /\ record line = Some (key, logEntry).
Proof.
  unfold lastRecord. intros Hlast.
  apply last_Some in Hlast as [l' Hl'].
  assert (Hin : logEntry ∈ omap (recordFor key) lines)
    by (rewrite Hl'; apply elem_of_app; right; by left).
  apply list_elem_of_omap in Hin as (line & Hline & Hrec).
  exists line. split; [done |]. unfold recordFor in Hrec.
  destruct (record line) as [[msg e]|]; [| done].
  by case_decide; simplify_eq.
Qed.

(** X17.  A number among the fields of a line that the loop emits is
    finite and is written as a string of digits, after a minus sign when
    it is negative: never with a decimal point or an exponent, and never
    as an infinity, since Unmarshal rejects the line of a number that
    float64 cannot hold. *)
Theorem numbers_as_digits (logs out : string) :
  out ∈ extractLogMessages logs ->
  exists ls,
    emission logs ls
    /\ out = logLines ls
    /\ forall key fields k f,
         (key, fields) ∈ ls -> (k, VFloat64 f) ∈ fields ->
         is_finite f
         /\ exists (neg : bool) (digits : string),
              writeField (k, VFloat64 f)
              = "; " +:+ k +:+ ": " +:+ (if neg then "-" else "")
                +:+ digits
              /\ digits <> "" /\ all_bytes digit_byte digits = true.
Proof.
  intros (ls & Hem & ->)%extractLogMessages_emission.
  pose proof Hem as (_ & _ & Hfields).
  exists ls. split; [done |]. split; [done |].
  intros key fields k f Hin Hk.
  destruct (Hfields _ _ Hin) as (logEntry & Hlatest & Hperm).
  rewrite Hperm in Hk. apply elem_of_map_to_list in Hk.
  assert (Hfin : is_finite f).
  { unfold latest in Hlatest. rewrite scanLines_lookup in Hlatest.
    destruct (decide (key ∈ watched)); [| done]. simpl in Hlatest.
    apply lastRecord_record in Hlatest as (line & _ & Hrec).
    apply record_finite in Hrec. unfold strip in Hk.
    repeat (apply lookup_delete_Some in Hk as [_ Hk]).
    by eapply Hrec. }
  split; [done |].
  assert (Hne : k <> "msg").
  { intros ->. unfold strip in Hk. by rewrite lookup_delete_eq in Hk. }
  destruct (FormatFloat_f0_digits f Hfin) as (neg & digits & Hf & Hd).
  exists neg, digits. split; [| done].
  unfold writeField. rewrite decide_True by done. by rewrite Hf.
Qed.

Lemma extractLogMessages_peers_15 :
  ("{ msg: peers in store; count: 15 }" +:+ nl)
  ∈ extractLogMessages line_peers_15.
Proof. vm_compute. find_elem. Qed.

Lemma extractLogMessages_lines_witness :
  exists ls,
    emission line_peers_15 ls
    /\ "{ msg: peers in store; count: 15 }" +:+ nl = logLines ls
    /\ (length ls <= 3)%nat
    /\ NoDup ls.*1.
Proof.
  destruct (extractLogMessages_lines line_peers_15 _
              extractLogMessages_peers_15)
    as (ls & Hem & Hout & Hlen & Hnd & _).
  exists ls. split; [exact Hem |]. split; [exact Hout |].
  split; [exact Hlen | exact Hnd].
Defined.

Lemma numbers_as_digits_witness :
  exists ls,
    emission line_peers_15 ls
    /\ "{ msg: peers in store; count: 15 }" +:+ nl = logLines ls
    /\ forall key fields k f,
         (key, fields) ∈ ls -> (k, VFloat64 f) ∈ fields ->
         is_finite f
         /\ exists (neg : bool) (digits : string),
              writeField (k, VFloat64 f)
              = "; " +:+ k +:+ ": " +:+ (if neg then "-" else "")
                +:+ digits
              /\ digits <> "" /\ all_bytes digit_byte digits = true.
Proof.
  exact (numbers_as_digits line_peers_15 _ extractLogMessages_peers_15).
Defined.

Lemma no_records_no_output_witness :
  "" ∈ extractLogMessages "-- No entries --".
Proof.
  apply (no_records_no_output "-- No entries --" ""); [| reflexivity].
  constructor; [| constructor]. intros key e _. vm_compute. discriminate.
Defined.

(** ** From the node's answers to the display *)

(** X19.  A node that answers the three stats commands and the reader's
    command, with a CPU line of at least four tokens and a second memory
    line of at least three: after a pass of the poll loop its view shows
    the report with the node's address, the two percentages, the two
    amounts of memory, the storage text and a result of the extractor on
    the logs, whatever the other nodes do short of a panic. *)
Theorem pollCycle_report (ssh_Dial : Dialer) (config : Config)
    (calls : list call) (textViews : list string) (i : nat) (node : Node)
    (conn : Client) (s0 s1 s2 s3 : Session)
    (cpu mem storage logs line2 : string)
    (t1 user t3 system m1 total used : string)
    (cpuMore memMore : list string) :
  pollCycle ssh_Dial config calls ->
  length textViews = length (Nodes config) ->
  Nodes config !! i = Some node ->
  ssh_Dial (IP node +:+ ":22") (Username node) (Password node)
  = Success conn ->
  NewSession conn 0 = Success s0 ->
  NewSession conn 1 = Success s1 ->
  NewSession conn 2 = Success s2 ->
  NewSession conn 3 = Success s3 ->
  Run s0 "top -b -n 1 | grep 'Cpu(s)'" = Success cpu ->
  Run s1 "free -m" = Success mem ->
  Run s2 "df -h /" = Success storage ->
  Run s3 (ServiceLogReader_cmd ceremonyclient) = Success logs ->
  Strings.Fields cpu = t1 :: user :: t3 :: system :: cpuMore ->
  Strings.Split mem LF !! 1%nat = Some line2 ->
  Strings.Fields line2 = m1 :: total :: used :: memMore ->
  exists logText,
    logText ∈ extractLogMessages logs
    /\ display calls textViews !! i
       = Some (reportText (IP node) user system total used storage logText).
Proof.
  intros (texts & Htexts & Hil)%pollCycle_tasks Hlen Hnode
    Hdial H0 H1 H2 H3 Hcpu Hmem Hstorage Hlogs Hfcpu Hline Hfmem.
  destruct (Forall2_lookup_l _ _ _ _ _ Htexts Hnode) as (text & Htext & Hs).
  assert (Hget : (getNodeStatus ssh_Dial node ceremonyclient).2
                 = Success (Some (reportText (IP node) user system total used
                                    storage <$> extractLogMessages logs))).
  { unfold getNodeStatus, statsCommands, runStats, run, wrap, bind,
      in_context, ret.
    rewrite Hdial, H0, Hcpu, H1, Hmem, H2, Hstorage, H3.
    unfold ReadLogs, ServiceLogReader_ReadLogs, run. rewrite Hlogs.
    cbn [snd]. do 2 f_equal.
    unfold formatOutput, parseCPUUsage, parseMemoryUsage, index. simpl.
    rewrite Hfcpu. simpl. rewrite Hline. simpl. rewrite Hfmem. simpl.
    rewrite bind_singleton. f_equal. apply list_fmap_ext. intros _ out _.
    unfold reportText. rewrite !app_assoc_s. reflexivity. }
  unfold slotText in Hs. rewrite Hget in Hs.
  apply list_elem_of_fmap in Hs as (logText & -> & HlogText).
  exists logText. split; [done |].
  rewrite display_lookup
    by (rewrite Hlen; by eapply lookup_lt_Some).
  rewrite (pollCycle_written texts) by done. by rewrite Htext.
Qed.


Lemma pollCycle_report_witness :
  exists logText,
    logText ∈ extractLogMessages (line_peers_12 +:+ nl +:+ line_peers_15
                                  +:+ nl)
    /\ display [SetText 0 report1; SetText 1 error2;
                QueueUpdateDraw [SetText 1 error2];
                QueueUpdateDraw [SetText 0 report1]] ["old 1"; "old 2"]
       !! 0%nat
       = Some (reportText (IP node1) "3.1" "1.2" "7976" "1234" df_output
                 logText).
Proof.
  refine (pollCycle_report one_down two_nodes _ ["old 1"; "old 2"] 0 node1
            {| NewSession := fun _ => Success healthy_session |}
            healthy_session healthy_session healthy_session healthy_session
            top_line free_output df_output
            (line_peers_12 +:+ nl +:+ line_peers_15 +:+ nl)
            "Mem:            7976        1234        5120          12        1622"
            "%Cpu(s):" "3.1" "us," "1.2" "Mem:" "7976" "1234"
            ["sy,"; "0.0"; "ni,"; "95.7"; "id,"; "0.0"; "wa,"; "0.0"; "hi,";
             "0.0"; "si"]
            ["5120"; "12"; "1622"]
            pollCycle_two_nodes _ _ _ _ _ _ _ _ _ _ _ _ _ _);
    vm_compute; reflexivity.
Defined.
